(** * PowGiverContract: byte layout of proof-of-work mining jobs

    A shallow embedding of [src/contracts/PowGiverContract.ts] and the
    properties of its encoders: left padding, hex parsing, extraction of the
    proof-of-work parameters from the contract state or from the answer of
    the client, the hashing job, the message body and the check of a mining
    result.

    Conventions of the embedding:
    - a Node [Buffer] is a [list byte]; [Buffer.concat] is list append;
    - a JavaScript [number] that holds an integer is a [Z]; a size or a
      position inside a buffer is a [nat];
    - a call either completes normally with a value or throws: the result of
      every embedded function is a [completion];
    - the cursor of the bit reader is threaded as explicit state. *)

From Stdlib Require Import ZArith Lia List.
From Stdlib.Strings Require Import String Ascii Byte.
From stdpp Require Import base list strings.
Import ListNotations.

Local Open Scope Z_scope.

(** ** Completions: a value, or a thrown [Error] *)

(** [Error (message)] is [throw Error(message)], the one exception the
    contract raises itself; [OutOfRangeError] is the error of the bit reader;
    [RangeError] is the error of an encoder that is handed a number outside
    the range of its field. *)
Inductive JsError : Type :=
  | Error (message : string)
  | OutOfRangeError
  | RangeError.

Inductive completion (A : Type) : Type :=
  | Normal (value : A)
  | Throw (e : JsError).

Arguments Normal {A} value.
Arguments Throw {A} e.

#[global] Instance completion_ret : MRet completion := @Normal.

#[global] Instance completion_bind : MBind completion :=
  fun A B (k : A → completion B) (m : completion A) =>
    match m with
    | Normal a => k a
    | Throw e => Throw e
    end.

#[global] Instance completion_fmap : FMap completion :=
  fun A B (f : A → B) (m : completion A) =>
    match m with
    | Normal a => Normal (f a)
    | Throw e => Throw e
    end.

(** A call that completes normally, whatever the value. *)
Definition completes {A : Type} (m : completion A) : Prop :=
  ∃ a, m = Normal a.

(** A call that throws, whatever the error. *)
Definition throws {A : Type} (m : completion A) : Prop :=
  ∃ e, m = Throw e.

(** ** Buffers *)

(** A [Buffer] is the list of its bytes. *)
Abbreviation Buffer := (list byte) (only parsing).

(** The byte a number is stored as in a [Uint8Array]: its low eight bits. *)
Definition byte_of_Z (z : Z) : byte :=
  default x00 (Byte.of_N (Z.to_N (Z.land z 255))).

Definition Z_of_byte (b : byte) : Z := Z.of_N (Byte.to_N b).

(** Bit [k] of a byte, bit 0 being the most significant one. *)
Definition byte_bit (b : byte) (k : nat) : bool :=
  Z.testbit (Z_of_byte b) (7 - Z.of_nat k).

(** The unsigned number a buffer holds, most significant byte first. *)
Definition uintBE (b : Buffer) : Z :=
  foldl (fun acc x => 256 * acc + Z_of_byte x) 0 b.

(** [Buffer.alloc(size)]: [size] zero bytes. *)
Definition Buffer_alloc (size : nat) : Buffer := replicate size x00.

(** [Buffer.from([n0, n1, ...])]: one byte per number. *)
Definition Buffer_from_array (ns : list Z) : Buffer := map byte_of_Z ns.

(** [Buffer.from(s)]: the bytes of the string. *)
Definition Buffer_from_string (s : string) : Buffer := list_byte_of_string s.

(** [Buffer.concat([b0, b1, ...])]. *)
Definition Buffer_concat (bs : list Buffer) : Buffer := concat bs.

(** [data[i]] for an index inside the buffer. *)
Definition Buffer_get (data : Buffer) (i : nat) : byte := default x00 (data !! i).

(** [res[idx] = v] on a typed array: a write at an index outside
    [0, res.length) is dropped, the array neither grows nor throws. *)
Definition Buffer_set (res : Buffer) (idx : Z) (v : byte) : Buffer :=
  if decide (0 ≤ idx < Z.of_nat (length res))
  then <[Z.to_nat idx := v]> res
  else res.

(** [a.equals(b)]: same length and the same byte at every position. *)
Fixpoint Buffer_equals (a b : Buffer) : bool :=
  match a, b with
  | [], [] => true
  | x :: a', y :: b' => Byte.eqb x y && Buffer_equals a' b'
  | _, _ => false
  end.

(** ** [padded] *)

(** [padded(data, size)]: the loop runs [i] over [0 .. data.length - 1] and
    stores [data[i]] at [i + (size - data.length)], an index that is negative
    for the first bytes of an oversize [data].  [size] is the length of an
    allocation, 16 or 32 at the two call sites, hence a [nat]; the index is
    computed in [Z]. *)
Definition padded (data : Buffer) (size : nat) : completion Buffer :=
  let res := Buffer_alloc size in
  Normal
    (foldl
       (fun res i =>
          Buffer_set res
            (Z.of_nat i + (Z.of_nat size - Z.of_nat (length data)))
            (Buffer_get data i))
       res
       (seq 0 (length data))).

(** ** [parseHex] *)

(** [src.startsWith(p)]. *)
Definition startsWith (src p : string) : bool := String.prefix p src.

(** [src.slice(n)]: [src] without its first [n] characters. *)
Definition slice (src : string) (n : nat) : string :=
  substring n (String.length src - n) src.

(** The value of a hexadecimal digit, [None] for any other character. *)
Definition unhex (c : ascii) : option Z :=
  let n := Z.of_N (N_of_ascii c) in
  if (48 <=? n) && (n <=? 57) then Some (n - 48)
  else if (97 <=? n) && (n <=? 102) then Some (n - 97 + 10)
  else if (65 <=? n) && (n <=? 70) then Some (n - 65 + 10)
  else None.

(** [Buffer.from(src, 'hex')]: one byte per pair of hexadecimal digits;
    decoding stops, without an error, at the first pair that holds a
    character that is no hexadecimal digit, and at a trailing single
    character. *)
Fixpoint Buffer_from_hex (src : string) : Buffer :=
  match src with
  | String c1 (String c2 rest) =>
      match unhex c1, unhex c2 with
      | Some hi, Some lo => byte_of_Z (Z.lor (Z.shiftl hi 4) lo) :: Buffer_from_hex rest
      | _, _ => []
      end
  | _ => []
  end.

(** The digits that [parseHex] hands to the decoder: the three rewrites of
    [src] in the order of the source. *)
Definition hexDigits (src : string) : string :=
  let src := if startsWith src "x" then slice src 1 else src in
  let src := if startsWith src "0x" then slice src 2 else src in
  let src := if negb (String.length src mod 2 =? 0)%nat then ("0" ++ src)%string else src in
  src.

Definition parseHex (src : string) : completion Buffer :=
  Normal (Buffer_from_hex (hexDigits src)).


(** ** [createUInt32] *)

(** The four bytes of an unsigned 32-bit number, most significant first. *)
Definition uint32BE (src : Z) : Buffer :=
  [ byte_of_Z (Z.shiftr src 24);
    byte_of_Z (Z.shiftr src 16);
    byte_of_Z (Z.shiftr src 8);
    byte_of_Z src ].

(** Modelled from the spec: [createUInt32] is imported from
    [./utils/createUInt32], a file that is not among the sources.  The spec
    gives its result as "the 4-byte big-endian encoding of expiry", expiry
    being an unsigned 32-bit unix time, and has every encoder of a
    fixed-width field "zero-pad or reject oversize input, never silently
    truncate": a number outside [0, 2^32) is rejected, a number inside is
    encoded on four bytes, the most significant first. *)
Definition createUInt32 (src : Z) : completion Buffer :=
  if decide (0 ≤ src < 2 ^ 32) then Normal (uint32BE src) else Throw RangeError.

(** ** Bit strings and their reader *)

(** The bits of a cell, in the order they were stored. *)
Abbreviation BitString := (list bool) (only parsing).

(** A cell, reduced to the one field the contract reads. *)
Record Cell : Type := mkCell {
  bits : BitString
}.

(** Modelled from the spec: [BitStringReader] is imported from the [ton]
    package, its code is not among the sources.  The spec (4.2) describes it
    as a forward-only cursor over a fixed bit sequence, starting at bit 0. *)
Record BitStringReader : Type := mkReader {
  reader_bits : BitString;
  offset : nat
}.

(** [new BitStringReader(bits)]. *)
Definition newBitStringReader (b : BitString) : BitStringReader :=
  {| reader_bits := b; offset := 0 |}.

(** A method of the reader: it returns a value and moves the cursor, or
    throws. *)
Definition Reading (A : Type) : Type :=
  BitStringReader → completion (A * BitStringReader).

#[global] Instance Reading_ret : MRet Reading :=
  fun A (a : A) (r : BitStringReader) => Normal (a, r).

#[global] Instance Reading_bind : MBind Reading :=
  fun A B (k : A → Reading B) (m : Reading A) (r : BitStringReader) =>
    match m r with
    | Normal (a, r') => k a r'
    | Throw e => Throw e
    end.

(** The value a sequence of reads returns on a fresh reader. *)
Definition runReading {A : Type} (m : Reading A) (b : BitString) : completion A :=
  fst <$> m (newBitStringReader b).

(** Eight bits as a byte, the first bit read being the most significant. *)
Definition byte_of_bits (bs : list bool) : byte :=
  byte_of_Z (foldl (fun acc (b : bool) => 2 * acc + Z.b2z b) 0 bs).

(** [n] bytes out of [8 * n] bits, in the order of the bits. *)
Fixpoint bytes_of_bits (n : nat) (bs : list bool) : Buffer :=
  match n with
  | O => []
  | S n' => byte_of_bits (take 8 bs) :: bytes_of_bits n' (drop 8 bs)
  end.

(** Modelled from the spec: [skip(nBits)] "advances the cursor by nBits;
    fails with OutOfRangeError if the cursor would exceed the sequence
    length". *)
Definition skip (nBits : nat) : Reading unit :=
  fun r =>
    if decide (offset r + nBits ≤ length (reader_bits r))%nat
    then Normal (tt, {| reader_bits := reader_bits r; offset := (offset r + nBits)%nat |})
    else Throw OutOfRangeError.

(** Modelled from the spec: [readBuffer(nBytes)] "reads nBytes * 8 bits
    starting at the cursor, advances the cursor by that amount, and returns
    them as a byte buffer in the same bit order as stored; fails with
    OutOfRangeError on insufficient remaining bits". *)
Definition readBuffer (nBytes : nat) : Reading Buffer :=
  fun r =>
    if decide (offset r + nBytes * 8 ≤ length (reader_bits r))%nat
    then Normal (bytes_of_bits nBytes (take (nBytes * 8) (drop (offset r) (reader_bits r))),
                 {| reader_bits := reader_bits r; offset := (offset r + nBytes * 8)%nat |})
    else Throw OutOfRangeError.

(** ** The contract *)

(** An address, reduced to the two fields the contract reads. *)
Record Address : Type := mkAddress {
  workChain : Z;
  hash : Buffer
}.

(** The result of reading the proof-of-work parameters. *)
Record PowParams : Type := mkPowParams {
  seed : Buffer;
  complexity : Buffer
}.

(** [new BinaryMessage(payload)]. *)
Record BinaryMessage : Type := mkBinaryMessage {
  payload : Buffer
}.

(** [new CommonMessageInfo({ body })]. *)
Record CommonMessageInfo : Type := mkCommonMessageInfo {
  info_body : BinaryMessage
}.

(** [new ExternalMessage({ to, body })]. *)
Record ExternalMessage : Type := mkExternalMessage {
  to : Address;
  body : CommonMessageInfo
}.

(** The bytes an external message carries to the giver. *)
Definition messageBody (m : ExternalMessage) : Buffer :=
  payload (info_body (body m)).

(** [PowGiverContract.extractPowParamsFromState(cell)]. *)
Definition extractPowParamsFromState (cell : Cell) : completion PowParams :=
  runReading
    (_ ← skip (32 + 32 + 256);
     seed ← readBuffer (128 / 8);
     complexity ← readBuffer (256 / 8);
     mret {| seed := seed; complexity := complexity |})
    (bits cell).

(** [PowGiverContract.createMiningJobHeader(wallet, expiresSec)]. *)
Definition createMiningJobHeader (wallet : Address) (expiresSec : Z) : completion Buffer :=
  expires ← createUInt32 expiresSec;
  mret
    (Buffer_concat
       [ Buffer_from_array [0x0; 0xF2];
         Buffer_from_string "Mine";
         Buffer_from_array [0];
         expires;
         hash wallet ]).

(** The message of the error both builders throw for a wallet outside the
    basic workchain. *)
Definition basicWorkchainOnly : string :=
  "Only walelts in basic workchain are supported".

(** [PowGiverContract.createMiningJob({ seed, random, wallet, expiresSec })];
    the fields of the argument object are the arguments. *)
Definition createMiningJob
    (seed random : Buffer) (wallet : Address) (expiresSec : Z) : completion Buffer :=
  if decide (workChain wallet ≠ 0) then Throw (Error basicWorkchainOnly)
  else
    header ← createMiningJobHeader wallet expiresSec;
    mret (Buffer_concat [header; random; seed; random]).

(** [PowGiverContract.checkMiningJobHash({ seed, random, wallet, expiresSec,
    hash })].  The hash primitive of [ton-crypto] is a parameter; the promise
    the function returns is resolved with the value of a normal completion
    and rejected with the error of a throw. *)
Definition checkMiningJobHash
    (sha256 : Buffer → Buffer)
    (seed random : Buffer) (wallet : Address) (expiresSec : Z) (hash : Buffer)
    : completion bool :=
  job ← createMiningJob seed random wallet expiresSec;
  let hash' := sha256 job in
  mret (Buffer_equals hash hash').

(** [PowGiverContract.createMiningMessage({ giver, seed, random, wallet,
    expiresSec })]. *)
Definition createMiningMessage
    (giver : Address) (seed random : Buffer) (wallet : Address) (expiresSec : Z)
    : completion ExternalMessage :=
  if decide (workChain wallet ≠ 0) then Throw (Error basicWorkchainOnly)
  else
    expires ← createUInt32 expiresSec;
    let body :=
      Buffer_concat
        [ Buffer_from_string "Mine";
          Buffer_from_array [0];
          expires;
          hash wallet;
          random;
          seed;
          random ] in
    let externalMessage :=
      {| to := giver;
         body := {| info_body := {| payload := body |} |} |} in
    mret externalMessage.


(** ** Sample inputs *)

(** A wallet of the basic workchain. *)
Definition sampleWallet : Address :=
  {| workChain := 0; hash := replicate 32 x07 |}.

(** An address of the masterchain, where the givers live. *)
Definition sampleGiver : Address :=
  {| workChain := -1; hash := replicate 32 xaa |}.

(** A state of 704 bits: 320 bits of header, the seed [0xA5 * 16] and the
    complexity [0x3C * 32]. *)
Definition sampleState : Cell :=
  {| bits :=
       replicate 320 true
         ++ mjoin (replicate 16 [true; false; true; false; false; true; false; true])
         ++ mjoin (replicate 32 [false; false; true; true; true; true; false; false]) |}.

(** A stand-in for the hash primitive, for running the check: the last
    three bytes of the job. *)
Definition sampleDigest (job : Buffer) : Buffer :=
  drop (length job - 3) job.

(** ** The contract object and its remote read *)

(** How a promise settles: fulfilled with a value, or rejected, either with
    an error that was thrown ([Thrown]) or with the [TypeError] the engine
    raises when a property of [undefined] is read. *)
Inductive rejection : Type :=
  | Thrown (e : JsError)
  | TypeError.

Inductive settled (A : Type) : Type :=
  | Fulfilled (value : A)
  | Rejected (r : rejection).

Arguments Fulfilled {A} value.
Arguments Rejected {A} r.

#[global] Instance settled_ret : MRet settled := @Fulfilled.

#[global] Instance settled_bind : MBind settled :=
  fun A B (k : A → settled B) (m : settled A) =>
    match m with
    | Fulfilled a => k a
    | Rejected r => Rejected r
    end.

(** A synchronous call inside an [async] function: a throw rejects the
    promise. *)
Definition settle {A : Type} (m : completion A) : settled A :=
  match m with
  | Normal a => Fulfilled a
  | Throw e => Rejected (Thrown e)
  end.

(** An entry of a stack item, which the client leaves untyped: a string,
    or any other value (a number, a boolean, [null], an array, an object),
    none of which has a [startsWith] method. *)
Inductive JsValue : Type :=
  | JsString (s : string)
  | JsOther.

(** The answer of [client.callGetMethod], reduced to the stack the contract
    reads; an item of the stack is an array such as [["num", "0x1a2b"]]. *)
Record GetMethodResult : Type := mkGetMethodResult {
  stack : list (list JsValue)
}.

(** The client, reduced to the one method the contract calls; how it
    settles is the client's business. *)
Record TonClient : Type := mkTonClient {
  callGetMethod : Address → string → settled GetMethodResult
}.

(** The fields the constructor sets. *)
Record PowGiverContract : Type := mkPowGiverContract {
  address : Address;
  client : TonClient
}.

(** [PowGiverContract.create(address, client)]. *)
Definition create (address : Address) (client : TonClient) : settled PowGiverContract :=
  mret {| address := address; client := client |}.

(** [params.stack[i][1]], handed to [parseHex]: when the item or its second
    entry is missing the value is [undefined], and reading [stack[i][1]] or
    calling [startsWith] on it raises a [TypeError]; so does [startsWith] on
    an entry that is no string. *)
Definition stackValue (params : GetMethodResult) (i : nat) : settled string :=
  match stack params !! i with
  | Some item =>
      match item !! 1%nat with
      | Some (JsString value) => Fulfilled value
      | Some JsOther => Rejected TypeError
      | None => Rejected TypeError
      end
  | None => Rejected TypeError
  end.

(** [contract.getPowParams()]. *)
Definition getPowParams (this : PowGiverContract) : settled PowParams :=
  params ← callGetMethod (client this) (address this) "get_pow_params";
  value0 ← stackValue params 0;
  seed ← settle (parsed ← parseHex value0; padded parsed 16);
  value1 ← stackValue params 1;
  complexity ← settle (parsed ← parseHex value1; padded parsed 32);
  mret {| seed := seed; complexity := complexity |}.

(** ** Reference encodings *)

(** The number a string of hexadecimal digits denotes. *)
Definition hexValue (s : string) : Z :=
  foldl (fun acc c => 16 * acc + default 0 (unhex c)) 0 (list_ascii_of_string s).

(** A string made of hexadecimal digits only. *)
Definition allHex (s : string) : Prop :=
  ∀ c, In c (list_ascii_of_string s) → unhex c ≠ None.

(** The eight bits of a byte, most significant first, and the bits of a
    buffer: how a state stores the bytes that the reader gives back. *)
Definition bits_of_byte (b : byte) : list bool :=
  map (byte_bit b) (seq 0 8).

Definition bits_of_bytes (bs : Buffer) : list bool :=
  mjoin (map bits_of_byte bs).

(** ** More sample inputs *)

(** A client that answers every call with the same stack. *)
Definition sampleClient (items : list (list JsValue)) : TonClient :=
  {| callGetMethod := fun _ _ => Fulfilled {| stack := items |} |}.

(** A client whose every call fails. *)
Definition failingClient : TonClient :=
  {| callGetMethod := fun _ _ => Rejected (Thrown (Error "timeout")) |}.

(** * Properties *)

(** ** Completions *)

Lemma Normal_not_throws {A : Type} (a : A) : ¬ throws (Normal a).
Proof. intros [e He]. discriminate He. Qed.

Lemma Throw_not_completes {A : Type} (e : JsError) : ¬ completes (Throw e : completion A).
Proof. intros [a Ha]. discriminate Ha. Qed.

(** ** Buffers *)

Lemma Buffer_set_length (res : Buffer) (idx : Z) (v : byte) :
  length (Buffer_set res idx v) = length res.
Proof.
  unfold Buffer_set. case_decide; [apply length_insert | reflexivity].
Qed.

Lemma Buffer_set_lookup (res : Buffer) (idx : Z) (v : byte) (j : nat) :
  (j < length res)%nat →
  Buffer_set res idx v !! j = if decide (idx = Z.of_nat j) then Some v else res !! j.
Proof.
  intros Hj. unfold Buffer_set.
  destruct (decide (0 ≤ idx < Z.of_nat (length res))) as [Hin | Hout].
  - destruct (decide (idx = Z.of_nat j)) as [-> | Hne].
    + rewrite Nat2Z.id. by apply list_lookup_insert_eq.
    + apply list_lookup_insert_ne. lia.
  - destruct (decide (idx = Z.of_nat j)); [lia | reflexivity].
Qed.

Lemma Buffer_equals_spec (a b : Buffer) : Buffer_equals a b = true ↔ a = b.
Proof.
  revert b. induction a as [| x a IH]; intros [| y b]; simpl; try (split; congruence).
  rewrite andb_true_iff, IH. split.
  - intros [Hxy ->]. by rewrite (Byte.byte_dec_bl _ _ Hxy).
  - intros [= -> ->]. split; [by apply Byte.byte_dec_lb | reflexivity].
Qed.

(** ** [padded] *)

Section padded_loop.
Variables (data : Buffer) (size : nat).

(** The body of the loop of [padded], and the buffer after [k] rounds. *)
Let step (res : Buffer) (i : nat) : Buffer :=
  Buffer_set res
    (Z.of_nat i + (Z.of_nat size - Z.of_nat (length data)))
    (Buffer_get data i).
Let after (k : nat) : Buffer := foldl step (Buffer_alloc size) (seq 0 k).

Lemma padded_unfold : padded data size = Normal (after (length data)).
Proof. reflexivity. Qed.

Lemma padded_after_length (k : nat) : length (after k) = size.
Proof.
  induction k as [| k IH]; [apply length_replicate |].
  unfold after in *. rewrite seq_S, foldl_snoc. unfold step at 1.
  by rewrite Buffer_set_length.
Qed.

(** After [k] rounds, position [j] holds [data[i]] when round [i < k] wrote
    there, and the zero of the allocation otherwise. *)
Lemma padded_after_lookup (k j : nat) :
  (j < size)%nat →
  after k !! j =
    Some (if decide (0 ≤ Z.of_nat j - (Z.of_nat size - Z.of_nat (length data)) < Z.of_nat k)
          then Buffer_get data (Z.to_nat (Z.of_nat j - (Z.of_nat size - Z.of_nat (length data))))
          else x00).
Proof.
  intros Hj. induction k as [| k IH].
  - unfold after; simpl. rewrite decide_False by lia.
    unfold Buffer_alloc. by apply lookup_replicate_2.
  - unfold after in *. rewrite seq_S, foldl_snoc. unfold step at 1.
    rewrite Buffer_set_lookup by (fold (after k); by rewrite padded_after_length).
    rewrite IH. simpl.
    destruct (decide (Z.of_nat k + (Z.of_nat size - Z.of_nat (length data)) = Z.of_nat j))
      as [Heq | Hne].
    + rewrite decide_True by lia. do 2 f_equal. lia.
    + repeat case_decide; try reflexivity; lia.
Qed.
End padded_loop.

(** Within the target size: zeros, then the input. *)
Lemma padded_fits (data : Buffer) (size : nat) :
  (length data ≤ size)%nat →
  padded data size = Normal (replicate (size - length data) x00 ++ data).
Proof.
  intros Hle. rewrite padded_unfold. f_equal. apply list_eq. intros j.
  destruct (decide (j < size)%nat) as [Hj | Hj].
  - rewrite padded_after_lookup by done.
    destruct (decide (j < size - length data)%nat) as [Hz | Hd].
    + rewrite decide_False by lia. rewrite lookup_app_l by (rewrite length_replicate; lia).
      symmetry. by apply lookup_replicate_2.
    + rewrite decide_True by lia.
      rewrite lookup_app_r by (rewrite length_replicate; lia).
      rewrite length_replicate. unfold Buffer_get.
      replace (Z.to_nat (Z.of_nat j - (Z.of_nat size - Z.of_nat (length data))))
        with (j - (size - length data))%nat by lia.
      destruct (lookup_lt_is_Some_2 data (j - (size - length data))%nat) as [b Hb]; [lia |].
      rewrite Hb. reflexivity.
  - rewrite !lookup_ge_None_2; [done | |].
    + rewrite length_app, length_replicate. lia.
    + rewrite padded_after_length. lia.
Qed.

(** Beyond the target size: the leading bytes are lost, the last [size]
    bytes are kept. *)
Lemma padded_oversize (data : Buffer) (size : nat) :
  (size < length data)%nat →
  padded data size = Normal (drop (length data - size) data).
Proof.
  intros Hlt. rewrite padded_unfold. f_equal. apply list_eq. intros j.
  destruct (decide (j < size)%nat) as [Hj | Hj].
  - rewrite padded_after_lookup by done.
    rewrite decide_True by lia. rewrite lookup_drop. unfold Buffer_get.
    replace (Z.to_nat (Z.of_nat j - (Z.of_nat size - Z.of_nat (length data))))
      with (length data - size + j)%nat by lia.
    destruct (lookup_lt_is_Some_2 data (length data - size + j)%nat) as [b Hb]; [lia |].
    rewrite Hb. reflexivity.
  - rewrite !lookup_ge_None_2; [done | |].
    + rewrite length_drop. lia.
    + rewrite padded_after_length. lia.
Qed.

(** ** [parseHex] *)

Lemma string_pair_ind (P : string → Prop) :
  P EmptyString →
  (∀ c, P (String c EmptyString)) →
  (∀ c1 c2 s, P s → P (String c1 (String c2 s))) →
  ∀ s, P s.
Proof.
  intros H0 H1 H2 s.
  assert (P s ∧ ∀ c, P (String c s)) as [Hs _]; [| exact Hs].
  induction s as [| c s [IHs IHc]]; split; auto.
Qed.

Lemma hexDigits_even (src : string) : Nat.even (String.length (hexDigits src)) = true.
Proof.
  unfold hexDigits.
  set (s1 := if startsWith src "x" then slice src 1 else src).
  set (s2 := if startsWith s1 "0x" then slice s1 2 else s1).
  pose proof (Nat.div_mod_eq (String.length s2) 2) as Hdm.
  pose proof (Nat.mod_upper_bound (String.length s2) 2) as Hub.
  destruct (Nat.eqb_spec (String.length s2 mod 2) 0) as [He | Ho]; simpl negb; cbv iota.
  - rewrite Nat.even_spec. exists (String.length s2 / 2)%nat. lia.
  - change (String.length ("0" +:+ s2)) with (S (String.length s2)).
    rewrite Nat.even_spec.
    exists (S (String.length s2 / 2))%nat. lia.
Qed.

Lemma unhex_range (c : ascii) (v : Z) : unhex c = Some v → 0 ≤ v < 16.
Proof.
  unfold unhex. set (n := Z.of_N (N_of_ascii c)).
  destruct ((48 <=? n) && (n <=? 57)) eqn:E1.
  { apply andb_true_iff in E1 as [?%Z.leb_le ?%Z.leb_le]. intros [= <-]; lia. }
  destruct ((97 <=? n) && (n <=? 102)) eqn:E2.
  { apply andb_true_iff in E2 as [?%Z.leb_le ?%Z.leb_le]. intros [= <-]; lia. }
  destruct ((65 <=? n) && (n <=? 70)) eqn:E3.
  { apply andb_true_iff in E3 as [?%Z.leb_le ?%Z.leb_le]. intros [= <-]; lia. }
  discriminate.
Qed.

(** A pair of hexadecimal digits decodes as the byte [16 * hi + lo]. *)
Lemma Buffer_from_hex_pair (c1 c2 : ascii) (rest : string) (hi lo : Z) :
  unhex c1 = Some hi → unhex c2 = Some lo →
  Buffer_from_hex (String c1 (String c2 rest)) =
    byte_of_Z (16 * hi + lo) :: Buffer_from_hex rest.
Proof.
  intros H1 H2. cbn [Buffer_from_hex]. rewrite H1, H2. do 2 f_equal.
  apply unhex_range in H1, H2.
  rewrite Z.shiftl_mul_pow2 by lia. change (2 ^ 4) with 16.
  symmetry. rewrite Z.mul_comm. apply Z.add_nocarry_lor.
  apply Z.bits_inj'. intros k Hk. rewrite Z.land_spec, Z.bits_0.
  destruct (decide (k < 4)) as [Hlt | Hge].
  - rewrite Z.mul_pow2_bits_low with (n := 4) (a := hi) by lia. reflexivity.
  - replace lo with (lo `mod` 2 ^ 4) by (apply Z.mod_small; lia).
    rewrite Z.mod_pow2_bits_high by lia. apply andb_false_r.
Qed.

(** Decoding stops at the first pair that holds a character that is no
    hexadecimal digit: an even-length string with such a character decodes
    as the digits before that pair, which are whole pairs. *)
Lemma Buffer_from_hex_truncates (s : string) :
  Nat.even (String.length s) = true →
  (∃ c, In c (list_ascii_of_string s) ∧ unhex c = None) →
  ∃ pre c1 c2 rest,
    s = (pre ++ String c1 (String c2 rest))%string ∧
    Nat.even (String.length pre) = true ∧
    allHex pre ∧
    (unhex c1 = None ∨ unhex c2 = None) ∧
    Buffer_from_hex s = Buffer_from_hex pre ∧
    (String.length pre + 2 ≤ String.length s)%nat.
Proof.
  induction s as [| c | c1 c2 s IH] using string_pair_ind; intros Hev [c' [Hin Hc']].
  - destruct Hin.
  - discriminate Hev.
  - destruct (unhex c1) as [hi |] eqn:E1; [destruct (unhex c2) as [lo |] eqn:E2 |].
    + destruct IH as (pre & d1 & d2 & rest & -> & Hpev & Hpre & Hd & Hdec & Hle).
      { exact Hev. }
      { exists c'. split; [| exact Hc'].
        simpl in Hin. destruct Hin as [<- | [<- | Hin]]; [congruence | congruence | exact Hin]. }
      exists (String c1 (String c2 pre)), d1, d2, rest. repeat split.
      * exact Hpev.
      * intros c [<- | [<- | Hc]]; [congruence | congruence | by apply Hpre].
      * exact Hd.
      * simpl. rewrite E1, E2. f_equal. exact Hdec.
      * simpl in *. lia.
    + exists EmptyString, c1, c2, s. repeat split.
      * intros c [].
      * by right.
      * simpl. by rewrite E1, E2.
      * simpl. lia.
    + exists EmptyString, c1, c2, s. repeat split.
      * intros c [].
      * by left.
      * simpl. by rewrite E1.
      * simpl. lia.
Qed.

(** ** The bit reader *)

Lemma byte_of_bits_bit (bs : list bool) (k : nat) :
  length bs = 8%nat → (k < 8)%nat →
  bs !! k = Some (byte_bit (byte_of_bits bs) k).
Proof.
  intros Hlen Hk.
  do 8 (destruct bs as [| ? bs]; [discriminate Hlen |]).
  destruct bs; [clear Hlen | discriminate Hlen].
  do 8 (destruct k as [| k]; [repeat match goal with b : bool |- _ => destruct b end; reflexivity |]).
  lia.
Qed.

Lemma bytes_of_bits_length (n : nat) (bs : list bool) :
  length (bytes_of_bits n bs) = n.
Proof. revert bs. induction n as [| n IH]; intros bs; simpl; [| rewrite IH]; reflexivity. Qed.

(** Byte [j] of the packed buffer holds bits [8 * j .. 8 * j + 7] of the
    sequence, in their order. *)
Lemma bytes_of_bits_lookup (n : nat) (bs : list bool) (j k : nat) :
  (8 * n ≤ length bs)%nat → (j < n)%nat → (k < 8)%nat →
  ∃ b, bytes_of_bits n bs !! j = Some b ∧ bs !! (8 * j + k)%nat = Some (byte_bit b k).
Proof.
  revert bs j. induction n as [| n IH]; intros bs j Hlen Hj Hk; [lia |].
  cbn [bytes_of_bits]. destruct j as [| j].
  - exists (byte_of_bits (take 8 bs)). split; [reflexivity |].
    rewrite <- (byte_of_bits_bit (take 8 bs) k) by (rewrite ?length_take; lia).
    rewrite lookup_take_lt by lia. f_equal.
  - destruct (IH (drop 8 bs) j) as (b & Hb & Hbit); [rewrite length_drop; lia | lia | lia |].
    exists b. split; [exact Hb |].
    rewrite lookup_drop in Hbit. rewrite <- Hbit. f_equal. lia.
Qed.

Lemma skip_in_range (nBits : nat) (r : BitStringReader) :
  (offset r + nBits ≤ length (reader_bits r))%nat →
  skip nBits r = Normal (tt, mkReader (reader_bits r) (offset r + nBits)).
Proof. intros H. unfold skip. by rewrite decide_True. Qed.

Lemma readBuffer_in_range (nBytes : nat) (r : BitStringReader) :
  (offset r + nBytes * 8 ≤ length (reader_bits r))%nat →
  readBuffer nBytes r =
    Normal (bytes_of_bits nBytes (take (nBytes * 8) (drop (offset r) (reader_bits r))),
            mkReader (reader_bits r) (offset r + nBytes * 8)).
Proof. intros H. unfold readBuffer. by rewrite decide_True. Qed.

(** On a state of 704 bits or more the three reads succeed. *)
Lemma extractPowParamsFromState_reads (cell : Cell) :
  (704 ≤ length (bits cell))%nat →
  extractPowParamsFromState cell =
    Normal {| seed := bytes_of_bits 16 (take 128 (drop 320 (bits cell)));
              complexity := bytes_of_bits 32 (take 256 (drop 448 (bits cell))) |}.
Proof.
  intros Hlen. unfold extractPowParamsFromState, runReading.
  change (32 + 32 + 256)%nat with 320%nat.
  change (128 / 8)%nat with 16%nat. change (256 / 8)%nat with 32%nat.
  unfold mbind, Reading_bind, mret, Reading_ret.
  rewrite skip_in_range by (cbn [offset reader_bits newBitStringReader]; lia).
  rewrite readBuffer_in_range by (cbn [offset reader_bits newBitStringReader]; lia).
  rewrite readBuffer_in_range by (cbn [offset reader_bits newBitStringReader]; lia).
  reflexivity.
Qed.

(** ** [createUInt32] *)

Lemma Z_of_byte_of_Z (z : Z) : Z_of_byte (byte_of_Z z) = z `mod` 256.
Proof.
  unfold Z_of_byte, byte_of_Z.
  change 255 with (Z.ones 8). rewrite Z.land_ones by lia. change (2 ^ 8) with 256.
  pose proof (Z.mod_pos_bound z 256 ltac:(lia)) as Hb.
  pose proof (Byte.to_of_N_option_map (Z.to_N (z `mod` 256))) as Hm.
  destruct (N.leb_spec (Z.to_N (z `mod` 256)) 255) as [_ | Hgt]; [| lia].
  destruct (Byte.of_N (Z.to_N (z `mod` 256))) as [b |]; [| discriminate Hm].
  injection Hm as Hm. simpl. rewrite Hm. lia.
Qed.

Lemma uint32BE_length (src : Z) : length (uint32BE src) = 4%nat.
Proof. reflexivity. Qed.

(** On an unsigned 32-bit value the four bytes read back as the value. *)
Lemma uint32BE_decode (src : Z) :
  0 ≤ src < 2 ^ 32 → uintBE (uint32BE src) = src.
Proof.
  intros Hr. unfold uintBE, uint32BE. cbn [foldl].
  rewrite !Z_of_byte_of_Z, !Z.shiftr_div_pow2 by lia.
  change (2 ^ 24) with 16777216. change (2 ^ 16) with 65536. change (2 ^ 8) with 256.
  change (2 ^ 32) with 4294967296 in Hr.
  Z.div_mod_to_equations. lia.
Qed.

Lemma createUInt32_in_range (src : Z) :
  0 ≤ src < 2 ^ 32 → createUInt32 src = Normal (uint32BE src).
Proof. intros Hr. unfold createUInt32. by rewrite decide_True. Qed.

Lemma createUInt32_out_of_range (src : Z) :
  ¬ (0 ≤ src < 2 ^ 32) → createUInt32 src = Throw RangeError.
Proof. intros Hr. unfold createUInt32. by rewrite decide_False. Qed.

(** ** Hexadecimal digits and their value *)

Lemma allHex_cons (c : ascii) (s : string) :
  allHex (String c s) ↔ unhex c ≠ None ∧ allHex s.
Proof.
  unfold allHex. simpl. split.
  - intros H. split; [apply H; by left | intros d Hd; apply H; by right].
  - intros [Hc Hs] d [<- | Hd]; [exact Hc | by apply Hs].
Qed.

(** On digits, the bytes the decoder returns and the digits themselves
    build the same number, from any accumulator. *)
Lemma Buffer_from_hex_digits (s : string) :
  Nat.even (String.length s) = true → allHex s →
  length (Buffer_from_hex s) = (String.length s / 2)%nat ∧
  ∀ acc,
    foldl (fun acc x => 256 * acc + Z_of_byte x) acc (Buffer_from_hex s)
    = foldl (fun acc c => 16 * acc + default 0 (unhex c)) acc (list_ascii_of_string s).
Proof.
  induction s as [| c | c1 c2 s IH] using string_pair_ind; intros Hev Hs.
  - split; [reflexivity | intros acc; reflexivity].
  - discriminate Hev.
  - apply allHex_cons in Hs as [Hc1 Hs]. apply allHex_cons in Hs as [Hc2 Hs].
    destruct (unhex c1) as [hi |] eqn:E1; [| by destruct Hc1].
    destruct (unhex c2) as [lo |] eqn:E2; [| by destruct Hc2].
    destruct (IH Hev Hs) as [IHlen IHval].
    rewrite (Buffer_from_hex_pair c1 c2 s hi lo E1 E2). split.
    + cbn [length String.length]. rewrite IHlen.
      change (S (S (String.length s))) with (1 * 2 + String.length s)%nat.
      by rewrite Nat.div_add_l by lia.
    + intros acc. cbn [foldl list_ascii_of_string]. rewrite E1, E2. cbn [default from_option id].
      rewrite IHval, Z_of_byte_of_Z. f_equal.
      apply unhex_range in E1, E2. rewrite Z.mod_small by lia. lia.
Qed.

(** * The claims *)

(** ** Padding *)

(** C8. For every buffer [data] and size [size] with
    [data.length <= size], [padded(data, size)] returns a buffer of exactly
    [size] bytes whose last [data.length] bytes are [data] and whose first
    [size - data.length] bytes are all zero. *)
Theorem padded_right_aligned (data : Buffer) (size : nat) :
  (length data ≤ size)%nat →
  ∃ res,
    padded data size = Normal res ∧
    length res = size ∧
    drop (size - length data) res = data ∧
    take (size - length data) res = replicate (size - length data) x00.
Proof.
  intros Hle. exists (replicate (size - length data) x00 ++ data).
  split; [by apply padded_fits |]. split; [| split].
  - rewrite length_app, length_replicate. lia.
  - rewrite drop_app_length'; [reflexivity | by rewrite length_replicate].
  - rewrite take_app_length'; [reflexivity | by rewrite length_replicate].
Qed.

Lemma padded_right_aligned_witness :
  (length [x0a; xbc] ≤ 4)%nat ∧
  ∃ res,
    padded [x0a; xbc] 4 = Normal res ∧
    length res = 4%nat ∧
    drop (4 - length [x0a; xbc]) res = [x0a; xbc] ∧
    take (4 - length [x0a; xbc]) res = replicate (4 - length [x0a; xbc]) x00.
Proof.
  assert (H : (length [x0a; xbc] ≤ 4)%nat) by (apply Nat.leb_le; reflexivity).
  split; [exact H | exact (padded_right_aligned [x0a; xbc] 4 H)].
Defined.

(** C6, as the code has it.  For every buffer [data] and size [size] with
    [data.length > size], [padded(data, size)] raises no error: it returns a
    buffer of exactly [size] bytes, the last [size] bytes of [data]; the
    leading [data.length - size] bytes are dropped. *)
Theorem padded_oversize_keeps_tail (data : Buffer) (size : nat) :
  (size < length data)%nat →
  padded data size = Normal (drop (length data - size) data) ∧
  length (drop (length data - size) data) = size ∧
  ¬ throws (padded data size).
Proof.
  intros Hlt. rewrite padded_oversize by done. split; [reflexivity |].
  split; [rewrite length_drop; lia | apply Normal_not_throws].
Qed.

Lemma padded_oversize_keeps_tail_witness :
  (2 < length [x01; x02; x03])%nat ∧
  padded [x01; x02; x03] 2 = Normal (drop (length [x01; x02; x03] - 2) [x01; x02; x03]) ∧
  length (drop (length [x01; x02; x03] - 2) [x01; x02; x03]) = 2%nat ∧
  ¬ throws (padded [x01; x02; x03] 2).
Proof.
  assert (H : (2 < length [x01; x02; x03])%nat) by (apply Nat.ltb_lt; reflexivity).
  split; [exact H | exact (padded_oversize_keeps_tail [x01; x02; x03] 2 H)].
Defined.

(** C6, as the claim states it, fails: a buffer of three bytes padded to two
    bytes comes back, without any error, as its last two bytes. *)
Lemma padded_oversize_returns :
  (2 < length [x01; x02; x03])%nat ∧
  padded [x01; x02; x03] 2 = Normal [x02; x03] ∧
  ¬ throws (padded [x01; x02; x03] 2).
Proof.
  split; [apply Nat.ltb_lt; reflexivity |].
  split; [reflexivity | apply Normal_not_throws].
Qed.

(** ** Hex parsing *)

(** C9. The accepted prefixes and the odd-length rule do not change the
    bytes: ["x1a2b"], ["0x1a2b"] and ["1a2b"] parse to the same buffer, and
    ["abc"] parses as ["0abc"]. *)
Theorem parseHex_normalization :
  parseHex "x1a2b" = parseHex "0x1a2b" ∧
  parseHex "0x1a2b" = parseHex "1a2b" ∧
  parseHex "1a2b" = Normal [x1a; x2b] ∧
  parseHex "abc" = parseHex "0abc" ∧
  parseHex "0abc" = Normal [x0a; xbc].
Proof. repeat split; reflexivity. Qed.

(** C7, as the code has it.  For every input whose digits, after the
    prefixes are stripped and an odd length is made even, hold a character
    that is no hexadecimal digit, [parseHex] raises no error: it returns the
    bytes of the digit pairs that come before the first pair holding such a
    character, one byte per pair, and drops the rest of the input.  The
    digits before that pair are whole pairs of hexadecimal digits, and the
    bytes returned are as many as these pairs and hold, big-endian, the
    number these digits denote. *)
Theorem parseHex_invalid_digit_truncates (src : string) :
  (∃ c, In c (list_ascii_of_string (hexDigits src)) ∧ unhex c = None) →
  ∃ pre c1 c2 rest b,
    hexDigits src = (pre ++ String c1 (String c2 rest))%string ∧
    Nat.even (String.length pre) = true ∧
    allHex pre ∧
    (unhex c1 = None ∨ unhex c2 = None) ∧
    parseHex src = Normal b ∧
    length b = (String.length pre / 2)%nat ∧
    uintBE b = hexValue pre ∧
    (String.length pre + 2 ≤ String.length (hexDigits src))%nat ∧
    ¬ throws (parseHex src).
Proof.
  intros Hbad.
  destruct (Buffer_from_hex_truncates (hexDigits src) (hexDigits_even src) Hbad)
    as (pre & c1 & c2 & rest & Hsplit & Hpev & Hpre & Hc & Hdec & Hle).
  destruct (Buffer_from_hex_digits pre Hpev Hpre) as [Hlen Hval].
  exists pre, c1, c2, rest, (Buffer_from_hex pre). repeat split; try assumption.
  - unfold parseHex. by rewrite Hdec.
  - apply Hval.
  - apply Normal_not_throws.
Qed.

Lemma parseHex_invalid_digit_truncates_witness :
  (∃ c, In c (list_ascii_of_string (hexDigits "0x1a2bg5")) ∧ unhex c = None) ∧
  ∃ pre c1 c2 rest b,
    hexDigits "0x1a2bg5" = (pre ++ String c1 (String c2 rest))%string ∧
    Nat.even (String.length pre) = true ∧
    allHex pre ∧
    (unhex c1 = None ∨ unhex c2 = None) ∧
    parseHex "0x1a2bg5" = Normal b ∧
    length b = (String.length pre / 2)%nat ∧
    uintBE b = hexValue pre ∧
    (String.length pre + 2 ≤ String.length (hexDigits "0x1a2bg5"))%nat ∧
    ¬ throws (parseHex "0x1a2bg5").
Proof.
  assert (H : ∃ c, In c (list_ascii_of_string (hexDigits "0x1a2bg5")) ∧ unhex c = None).
  { exists "g"%char. split; [| reflexivity]. do 4 right. left. reflexivity. }
  split; [exact H | exact (parseHex_invalid_digit_truncates "0x1a2bg5" H)].
Defined.

(** The bytes in front of the bad pair are all returned: ["0x1a2bg5"]
    gives both [0x1a] and [0x2b]. *)
Example parseHex_keeps_every_good_pair :
  parseHex "0x1a2bg5" = Normal [x1a; x2b] ∧
  parseHex "1a2b3" = Normal [x01; xa2; xb3] ∧
  parseHex "1a2b3z" = Normal [x1a; x2b].
Proof. repeat split; reflexivity. Qed.

(** C7, as the claim states it, fails: ["0x1a2g55"] holds the character
    [g] after its prefix is stripped, and [parseHex] returns the one byte
    [0x1a] without any error. *)
Lemma parseHex_invalid_digit_returns :
  hexDigits "0x1a2g55" = "1a2g55"%string ∧
  In "g"%char (list_ascii_of_string (hexDigits "0x1a2g55")) ∧
  unhex "g" = None ∧
  parseHex "0x1a2g55" = Normal [x1a] ∧
  ¬ throws (parseHex "0x1a2g55").
Proof.
  split; [reflexivity |]. split; [right; right; right; left; reflexivity |].
  split; [reflexivity |]. split; [reflexivity | apply Normal_not_throws].
Qed.

(** ** State extraction *)

(** C3. On every state of at least 704 bits, [extractPowParamsFromState]
    skips the first 320 bits and returns as seed the 16 bytes made of bits
    [320 .. 447] and as complexity the 32 bytes made of bits [448 .. 703],
    each bit at the place it was stored: bit [k] of byte [j] of the seed is
    bit [320 + 8 j + k] of the state, bit [k] of byte [j] of the complexity
    is bit [448 + 8 j + k]. *)
Theorem extractPowParamsFromState_layout (cell : Cell) :
  (704 ≤ length (bits cell))%nat →
  ∃ s c,
    extractPowParamsFromState cell = Normal {| seed := s; complexity := c |} ∧
    length s = 16%nat ∧
    length c = 32%nat ∧
    (∀ j k, (j < 16)%nat → (k < 8)%nat →
       ∃ b, s !! j = Some b ∧ bits cell !! (320 + 8 * j + k)%nat = Some (byte_bit b k)) ∧
    (∀ j k, (j < 32)%nat → (k < 8)%nat →
       ∃ b, c !! j = Some b ∧ bits cell !! (448 + 8 * j + k)%nat = Some (byte_bit b k)).
Proof.
  intros Hlen. eexists _, _. split; [by apply extractPowParamsFromState_reads |].
  split; [apply bytes_of_bits_length |]. split; [apply bytes_of_bits_length |].
  split; intros j k Hj Hk.
  - destruct (bytes_of_bits_lookup 16 (take 128 (drop 320 (bits cell))) j k)
      as (b & Hb & Hbit); [rewrite length_take, length_drop; lia | lia | lia |].
    exists b. split; [exact Hb |].
    rewrite lookup_take_lt, lookup_drop in Hbit by lia.
    rewrite <- Hbit. f_equal; lia.
  - destruct (bytes_of_bits_lookup 32 (take 256 (drop 448 (bits cell))) j k)
      as (b & Hb & Hbit); [rewrite length_take, length_drop; lia | lia | lia |].
    exists b. split; [exact Hb |].
    rewrite lookup_take_lt, lookup_drop in Hbit by lia.
    rewrite <- Hbit. f_equal; lia.
Qed.

Lemma extractPowParamsFromState_layout_witness :
  (704 ≤ length (bits sampleState))%nat ∧
  ∃ s c,
    extractPowParamsFromState sampleState = Normal {| seed := s; complexity := c |} ∧
    length s = 16%nat ∧
    length c = 32%nat ∧
    (∀ j k, (j < 16)%nat → (k < 8)%nat →
       ∃ b, s !! j = Some b ∧ bits sampleState !! (320 + 8 * j + k)%nat = Some (byte_bit b k)) ∧
    (∀ j k, (j < 32)%nat → (k < 8)%nat →
       ∃ b, c !! j = Some b ∧ bits sampleState !! (448 + 8 * j + k)%nat = Some (byte_bit b k)).
Proof.
  assert (H : (704 ≤ length (bits sampleState))%nat) by (apply Nat.leb_le; reflexivity).
  split; [exact H | exact (extractPowParamsFromState_layout sampleState H)].
Defined.

Example extractPowParamsFromState_example :
  extractPowParamsFromState sampleState
  = Normal {| seed := replicate 16 xa5; complexity := replicate 32 x3c |}.
Proof. reflexivity. Qed.

(** ** Mining jobs *)

Lemma createMiningJob_basic (seed random : Buffer) (wallet : Address) (expiresSec : Z) :
  workChain wallet = 0 →
  0 ≤ expiresSec < 2 ^ 32 →
  createMiningJob seed random wallet expiresSec =
    Normal ([x00; xf2] ++ [x4d; x69; x6e; x65] ++ [x00] ++ uint32BE expiresSec
              ++ hash wallet ++ random ++ seed ++ random).
Proof.
  intros Hwc He. unfold createMiningJob. rewrite decide_False by (intros H; by apply H).
  unfold createMiningJobHeader. rewrite createUInt32_in_range by done.
  unfold Buffer_concat. cbn [mbind completion_bind mret completion_ret].
  f_equal. cbn [concat]. rewrite !app_nil_r, <- !app_assoc. reflexivity.
Qed.

Lemma createMiningMessage_basic
    (giver : Address) (seed random : Buffer) (wallet : Address) (expiresSec : Z) :
  workChain wallet = 0 →
  0 ≤ expiresSec < 2 ^ 32 →
  createMiningMessage giver seed random wallet expiresSec =
    Normal
      {| to := giver;
         body :=
           {| info_body :=
                {| payload :=
                     [x4d; x69; x6e; x65] ++ [x00] ++ uint32BE expiresSec
                       ++ hash wallet ++ random ++ seed ++ random |} |} |}.
Proof.
  intros Hwc He. unfold createMiningMessage. rewrite decide_False by (intros H; by apply H).
  rewrite createUInt32_in_range by done.
  unfold Buffer_concat. cbn [mbind completion_bind mret completion_ret concat].
  rewrite !app_nil_r. reflexivity.
Qed.

(** C1. For a wallet in workchain 0 and an expiry that is an unsigned
    32-bit number, the buffer [createMiningJob] returns is the two bytes
    [0x00, 0xF2] followed by the body of the message that
    [createMiningMessage] builds from the same arguments, that body being
    ['Mine'], a zero byte, the expiry as [createUInt32] encodes it, the hash
    of the wallet, random, seed and random again. *)
Theorem createMiningJob_is_prefixed_message_body
    (giver : Address) (seed random : Buffer) (wallet : Address) (expiresSec : Z) :
  workChain wallet = 0 →
  0 ≤ expiresSec < 2 ^ 32 →
  ∃ wire expires,
    createUInt32 expiresSec = Normal expires ∧
    messageBody <$> createMiningMessage giver seed random wallet expiresSec = Normal wire ∧
    createMiningJob seed random wallet expiresSec = Normal ([x00; xf2] ++ wire) ∧
    wire = Buffer_from_string "Mine" ++ [x00] ++ expires
             ++ hash wallet ++ random ++ seed ++ random.
Proof.
  intros Hwc He. eexists _, _. split; [by apply createUInt32_in_range |]. split; [| split].
  - rewrite createMiningMessage_basic by done. reflexivity.
  - rewrite createMiningJob_basic by done. reflexivity.
  - reflexivity.
Qed.

Lemma createMiningJob_is_prefixed_message_body_witness :
  workChain sampleWallet = 0 ∧
  0 ≤ 1700000000 < 2 ^ 32 ∧
  ∃ wire expires,
    createUInt32 1700000000 = Normal expires ∧
    messageBody <$> createMiningMessage sampleGiver [x22; x23] [x11] sampleWallet 1700000000
      = Normal wire ∧
    createMiningJob [x22; x23] [x11] sampleWallet 1700000000 = Normal ([x00; xf2] ++ wire) ∧
    wire = Buffer_from_string "Mine" ++ [x00] ++ expires
             ++ hash sampleWallet ++ [x11] ++ [x22; x23] ++ [x11].
Proof.
  assert (He : 0 ≤ 1700000000 < 2 ^ 32) by (split; [discriminate | reflexivity]).
  split; [reflexivity |]. split; [exact He |].
  exact (createMiningJob_is_prefixed_message_body
           sampleGiver [x22; x23] [x11] sampleWallet 1700000000 eq_refl He).
Defined.

(** Outside the unsigned 32-bit range the encoder refuses the expiry, and
    with it both builders; the workchain guard still comes first. *)
Example builders_refuse_wide_expiry :
  createMiningJob [x22] [x11] sampleWallet 4294967296 = Throw RangeError ∧
  createMiningJob [x22] [x11] sampleWallet (-1) = Throw RangeError ∧
  createMiningMessage sampleGiver [x22] [x11] sampleWallet 4294967296 = Throw RangeError ∧
  createMiningJob [x22] [x11] sampleGiver 4294967296 = Throw (Error basicWorkchainOnly).
Proof. repeat split; reflexivity. Qed.

(** C2. For the wallet of workchain 0 and hash [0x00 * 32], expiry
    1000000000, random [0x11 * 16] and seed [0x22 * 16], the body of the
    message is ['Mine'], [0x00], [0x3B 0x9A 0xCA 0x00], [0x00 * 32],
    [0x11 * 16], [0x22 * 16], [0x11 * 16], 89 bytes in all, and the hashing
    job is these bytes after [0x00 0xF2], 91 bytes in all. *)
Theorem mining_job_end_to_end (giver : Address) :
  messageBody <$>
    createMiningMessage giver (replicate 16 x22) (replicate 16 x11)
      {| workChain := 0; hash := replicate 32 x00 |} 1000000000
  = Normal
      ([x4d; x69; x6e; x65] ++ [x00] ++ [x3b; x9a; xca; x00] ++ replicate 32 x00
         ++ replicate 16 x11 ++ replicate 16 x22 ++ replicate 16 x11) ∧
  length
    ([x4d; x69; x6e; x65] ++ [x00] ++ [x3b; x9a; xca; x00] ++ replicate 32 x00
       ++ replicate 16 x11 ++ replicate 16 x22 ++ replicate 16 x11) = 89%nat ∧
  createMiningJob (replicate 16 x22) (replicate 16 x11)
    {| workChain := 0; hash := replicate 32 x00 |} 1000000000
  = Normal
      ([x00; xf2] ++ [x4d; x69; x6e; x65] ++ [x00] ++ [x3b; x9a; xca; x00] ++ replicate 32 x00
         ++ replicate 16 x11 ++ replicate 16 x22 ++ replicate 16 x11) ∧
  length
    ([x00; xf2] ++ [x4d; x69; x6e; x65] ++ [x00] ++ [x3b; x9a; xca; x00] ++ replicate 32 x00
       ++ replicate 16 x11 ++ replicate 16 x22 ++ replicate 16 x11) = 91%nat ∧
  Buffer_from_string "Mine" = [x4d; x69; x6e; x65] ∧
  uintBE [x3b; x9a; xca; x00] = 1000000000.
Proof. repeat split; reflexivity. Qed.

(** C4. For every wallet whose workchain is not 0, [createMiningJob] and
    [createMiningMessage] both throw the error of the workchain guard, and
    neither returns a buffer or a message. *)
Theorem builders_reject_other_workchains
    (giver : Address) (seed random : Buffer) (wallet : Address) (expiresSec : Z) :
  workChain wallet ≠ 0 →
  createMiningJob seed random wallet expiresSec = Throw (Error basicWorkchainOnly) ∧
  createMiningMessage giver seed random wallet expiresSec = Throw (Error basicWorkchainOnly) ∧
  ¬ completes (createMiningJob seed random wallet expiresSec) ∧
  ¬ completes (createMiningMessage giver seed random wallet expiresSec).
Proof.
  intros Hwc. unfold createMiningJob, createMiningMessage.
  rewrite !decide_True by done.
  repeat split; try reflexivity; apply Throw_not_completes.
Qed.

Lemma builders_reject_other_workchains_witness :
  workChain sampleGiver ≠ 0 ∧
  createMiningJob [x22] [x11] sampleGiver 1700000000 = Throw (Error basicWorkchainOnly) ∧
  createMiningMessage sampleGiver [x22] [x11] sampleGiver 1700000000
    = Throw (Error basicWorkchainOnly) ∧
  ¬ completes (createMiningJob [x22] [x11] sampleGiver 1700000000) ∧
  ¬ completes (createMiningMessage sampleGiver [x22] [x11] sampleGiver 1700000000).
Proof.
  assert (H : workChain sampleGiver ≠ 0) by (intros E; discriminate E).
  split; [exact H |].
  exact (builders_reject_other_workchains sampleGiver [x22] [x11] sampleGiver 1700000000 H).
Defined.

(** C5. For a wallet in workchain 0 and an expiry that is an unsigned
    32-bit number, [checkMiningJobHash] resolves to [true] exactly when the
    hash of the job that [createMiningJob] builds from the same arguments
    equals the candidate byte for byte; on a mismatch it resolves to
    [false], and it never rejects. *)
Theorem checkMiningJobHash_correct
    (sha256 : Buffer → Buffer)
    (seed random : Buffer) (wallet : Address) (expiresSec : Z) (candidate : Buffer) :
  workChain wallet = 0 →
  0 ≤ expiresSec < 2 ^ 32 →
  ∃ job,
    createMiningJob seed random wallet expiresSec = Normal job ∧
    (checkMiningJobHash sha256 seed random wallet expiresSec candidate = Normal true
       ↔ sha256 job = candidate) ∧
    (sha256 job ≠ candidate →
       checkMiningJobHash sha256 seed random wallet expiresSec candidate = Normal false) ∧
    ¬ throws (checkMiningJobHash sha256 seed random wallet expiresSec candidate).
Proof.
  intros Hwc He. eexists. split; [by apply createMiningJob_basic |].
  unfold checkMiningJobHash. rewrite createMiningJob_basic by done.
  cbn [mbind completion_bind mret completion_ret].
  split; [| split].
  - split.
    + intros [= Heq]. symmetry. by apply Buffer_equals_spec.
    + intros Heq. f_equal. by apply Buffer_equals_spec.
  - intros Hne. f_equal. apply not_true_is_false. intros Heq.
    apply Hne. symmetry. by apply Buffer_equals_spec.
  - apply Normal_not_throws.
Qed.

Lemma checkMiningJobHash_correct_witness :
  workChain sampleWallet = 0 ∧
  0 ≤ 1700000000 < 2 ^ 32 ∧
  ∃ job,
    createMiningJob [x22] [x11] sampleWallet 1700000000 = Normal job ∧
    (checkMiningJobHash sampleDigest [x22] [x11] sampleWallet 1700000000 [x11; x22; x11]
       = Normal true
       ↔ sampleDigest job = [x11; x22; x11]) ∧
    (sampleDigest job ≠ [x11; x22; x11] →
       checkMiningJobHash sampleDigest [x22] [x11] sampleWallet 1700000000 [x11; x22; x11]
       = Normal false) ∧
    ¬ throws
        (checkMiningJobHash sampleDigest [x22] [x11] sampleWallet 1700000000 [x11; x22; x11]).
Proof.
  assert (He : 0 ≤ 1700000000 < 2 ^ 32) by (split; [discriminate | reflexivity]).
  split; [reflexivity |]. split; [exact He |].
  exact (checkMiningJobHash_correct
           sampleDigest [x22] [x11] sampleWallet 1700000000 [x11; x22; x11] eq_refl He).
Defined.

Example checkMiningJobHash_accepts :
  checkMiningJobHash sampleDigest [x22] [x11] sampleWallet 1700000000 [x11; x22; x11]
  = Normal true.
Proof. reflexivity. Qed.

Example checkMiningJobHash_refuses :
  checkMiningJobHash sampleDigest [x22] [x11] sampleWallet 1700000000 [x11; x22; x12]
  = Normal false.
Proof. reflexivity. Qed.

(** C10. [createMiningJob] checks no length: for a wallet in workchain 0
    with a hash of 32 bytes, an expiry that is an unsigned 32-bit number and
    a seed and a random of any length, it returns a buffer of
    [43 + seed.length + 2 * random.length] bytes. *)
Theorem createMiningJob_length
    (seed random : Buffer) (wallet : Address) (expiresSec : Z) :
  workChain wallet = 0 →
  length (hash wallet) = 32%nat →
  0 ≤ expiresSec < 2 ^ 32 →
  ∃ job,
    createMiningJob seed random wallet expiresSec = Normal job ∧
    length job = (43 + length seed + 2 * length random)%nat.
Proof.
  intros Hwc Hhash He. eexists. split; [by apply createMiningJob_basic |].
  rewrite !length_app, uint32BE_length, Hhash. cbn [length]. lia.
Qed.

Lemma createMiningJob_length_witness :
  workChain sampleWallet = 0 ∧
  length (hash sampleWallet) = 32%nat ∧
  0 ≤ 1700000000 < 2 ^ 32 ∧
  ∃ job,
    createMiningJob [x22; x23; x24] [] sampleWallet 1700000000 = Normal job ∧
    length job = (43 + length [x22; x23; x24] + 2 * length (@nil byte))%nat.
Proof.
  assert (He : 0 ≤ 1700000000 < 2 ^ 32) by (split; [discriminate | reflexivity]).
  split; [reflexivity |]. split; [reflexivity |]. split; [exact He |].
  exact (createMiningJob_length [x22; x23; x24] [] sampleWallet 1700000000 eq_refl eq_refl He).
Defined.

(** * Further properties of the code *)

(** ** Big-endian numbers *)

Lemma Z_of_byte_range (b : byte) : 0 ≤ Z_of_byte b < 256.
Proof.
  unfold Z_of_byte. pose proof (Byte.to_N_bounded b) as Hb. lia.
Qed.

Lemma uintBE_foldl (acc : Z) (b : Buffer) :
  foldl (fun acc x => 256 * acc + Z_of_byte x) acc b
  = acc * 256 ^ Z.of_nat (length b) + uintBE b.
Proof.
  unfold uintBE. revert acc. induction b as [| x b IH]; intros acc.
  - simpl. lia.
  - cbn [foldl length]. rewrite IH, (IH (256 * 0 + Z_of_byte x)).
    rewrite Nat2Z.inj_succ, Z.pow_succ_r by lia. lia.
Qed.

Lemma uintBE_cons (x : byte) (b : Buffer) :
  uintBE (x :: b) = Z_of_byte x * 256 ^ Z.of_nat (length b) + uintBE b.
Proof. unfold uintBE at 1. cbn [foldl]. rewrite uintBE_foldl. lia. Qed.

Lemma uintBE_app (a b : Buffer) :
  uintBE (a ++ b) = uintBE a * 256 ^ Z.of_nat (length b) + uintBE b.
Proof.
  unfold uintBE at 1. rewrite foldl_app, uintBE_foldl. reflexivity.
Qed.

Lemma uintBE_range (b : Buffer) : 0 ≤ uintBE b < 256 ^ Z.of_nat (length b).
Proof.
  induction b as [| x b IH]; [change (0 ≤ 0 < 1); lia |].
  rewrite uintBE_cons. cbn [length]. rewrite Nat2Z.inj_succ, Z.pow_succ_r by lia.
  pose proof (Z_of_byte_range x). nia.
Qed.

Lemma uintBE_zeros (n : nat) : uintBE (replicate n x00) = 0.
Proof.
  induction n as [| n IH]; [reflexivity |].
  cbn [replicate]. rewrite uintBE_cons, IH. reflexivity.
Qed.

(** ** [padded], whatever the sizes *)

(** One shape for both cases: the zeros that are missing, then the bytes
    that fit. *)
Lemma padded_result (data : Buffer) (size : nat) :
  padded data size
  = Normal (replicate (size - length data) x00 ++ drop (length data - size) data).
Proof.
  destruct (decide (length data ≤ size)%nat) as [Hle | Hgt].
  - rewrite padded_fits by done.
    replace (length data - size)%nat with 0%nat by lia. reflexivity.
  - rewrite padded_oversize by lia.
    replace (size - length data)%nat with 0%nat by lia. reflexivity.
Qed.

Lemma padded_result_length (data : Buffer) (size : nat) :
  length (replicate (size - length data) x00 ++ drop (length data - size) data) = size.
Proof. rewrite length_app, length_replicate, length_drop. lia. Qed.

Lemma padded_result_value (data : Buffer) (size : nat) :
  uintBE (replicate (size - length data) x00 ++ drop (length data - size) data)
  = uintBE data `mod` 256 ^ Z.of_nat size.
Proof.
  rewrite uintBE_app, uintBE_zeros, Z.mul_0_l, Z.add_0_l.
  destruct (decide (length data ≤ size)%nat) as [Hle | Hgt].
  - replace (length data - size)%nat with 0%nat by lia. rewrite drop_0.
    symmetry. apply Z.mod_small. pose proof (uintBE_range data) as Hr.
    split; [lia |]. eapply Z.lt_le_trans; [apply Hr |].
    apply Z.pow_le_mono_r; lia.
  - set (k := (length data - size)%nat).
    assert (Hlen : Z.of_nat (length (drop k data)) = Z.of_nat size)
      by (rewrite length_drop; lia).
    assert (Hsplit : uintBE data
                     = uintBE (take k data) * 256 ^ Z.of_nat size + uintBE (drop k data)).
    { rewrite <- Hlen, <- uintBE_app. by rewrite take_drop. }
    rewrite Hsplit, Z.add_comm, Z.mod_add by (apply Z.pow_nonzero; lia).
    symmetry. apply Z.mod_small. rewrite <- Hlen. apply uintBE_range.
Qed.

(** X1. [padded(data, size)] always returns exactly [size] bytes, and read
    as a big-endian number the result is the number [data] holds, reduced
    modulo [256 ^ size]: padding adds leading zeros, truncation drops the
    most significant bytes. *)
Theorem padded_value (data : Buffer) (size : nat) :
  ∃ res,
    padded data size = Normal res ∧
    length res = size ∧
    uintBE res = uintBE data `mod` 256 ^ Z.of_nat size.
Proof.
  eexists. split; [apply padded_result |]. split; [apply padded_result_length |].
  apply padded_result_value.
Qed.

(** X2. Padding is idempotent: what [padded(data, size)] returns is left
    unchanged by a second [padded(_, size)], for every [data] and [size],
    oversize input included. *)
Theorem padded_idempotent (data : Buffer) (size : nat) :
  ∃ res,
    padded data size = Normal res ∧
    padded res size = Normal res.
Proof.
  eexists. split; [apply padded_result |].
  rewrite padded_fits by (rewrite padded_result_length; lia).
  rewrite padded_result_length, Nat.sub_diag. reflexivity.
Qed.

(** ** [parseHex], in general *)

Lemma substring_all (s : string) : substring 0 (String.length s) s = s.
Proof. induction s as [| c s IH]; [reflexivity |]. simpl. by rewrite IH. Qed.

Lemma slice_1 (c : ascii) (s : string) : slice (String c s) 1 = s.
Proof. unfold slice. simpl. rewrite Nat.sub_0_r. apply substring_all. Qed.

Lemma slice_2 (c1 c2 : ascii) (s : string) : slice (String c1 (String c2 s)) 2 = s.
Proof. unfold slice. simpl. rewrite Nat.sub_0_r. apply substring_all. Qed.

Lemma startsWith_cons (c d : ascii) (s p : string) :
  startsWith (String c s) (String d p) = if ascii_dec d c then startsWith s p else false.
Proof. reflexivity. Qed.

Lemma startsWith_empty (s : string) : startsWith s "" = true.
Proof. by destruct s. Qed.

Lemma startsWith_x (s : string) : startsWith (String "x" s) "x" = true.
Proof.
  rewrite startsWith_cons, startsWith_empty. by destruct (ascii_dec "x" "x").
Qed.

Lemma startsWith_0x (s : string) : startsWith (String "0" (String "x" s)) "0x" = true.
Proof.
  rewrite !startsWith_cons, startsWith_empty.
  destruct (ascii_dec "0" "0"); [| done]. by destruct (ascii_dec "x" "x").
Qed.

(** Without a prefix to strip, only the odd-length rule applies. *)
Lemma hexDigits_plain (s : string) :
  startsWith s "x" = false → startsWith s "0x" = false →
  hexDigits s = if Nat.even (String.length s) then s else String "0" s.
Proof.
  intros Hx H0x. unfold hexDigits. rewrite Hx, H0x.
  pose proof (Nat.div_mod_eq (String.length s) 2) as Hdm.
  pose proof (Nat.mod_upper_bound (String.length s) 2 ltac:(lia)) as Hub.
  destruct (Nat.even (String.length s)) eqn:Hev.
  - apply Nat.even_spec in Hev as [m Hm].
    destruct (Nat.eqb_spec (String.length s mod 2) 0) as [_ | Hne]; [reflexivity | lia].
  - destruct (Nat.eqb_spec (String.length s mod 2) 0) as [He | _]; [| reflexivity].
    assert (Nat.even (String.length s) = true); [| congruence].
    apply Nat.even_spec. exists (String.length s / 2)%nat. lia.
Qed.

(** A string of hexadecimal digits has no prefix to strip. *)
Lemma allHex_no_prefix (s : string) :
  allHex s → startsWith s "x" = false ∧ startsWith s "0x" = false.
Proof.
  intros Hs. destruct s as [| c1 s]; [split; reflexivity |].
  apply allHex_cons in Hs as [Hc1 Hs]. split.
  - rewrite startsWith_cons.
    destruct (ascii_dec "x" c1) as [<- | _]; [by destruct Hc1 | reflexivity].
  - rewrite startsWith_cons. destruct (ascii_dec "0" c1) as [_ | _]; [| reflexivity].
    destruct s as [| c2 s]; [reflexivity |].
    apply allHex_cons in Hs as [Hc2 _]. rewrite startsWith_cons.
    destruct (ascii_dec "x" c2) as [<- | _]; [by destruct Hc2 | reflexivity].
Qed.

Lemma hexDigits_prefixed (s : string) :
  startsWith s "x" = false → startsWith s "0x" = false →
  hexDigits (String "x" s) = hexDigits s ∧
  hexDigits (String "0" (String "x" s)) = hexDigits s ∧
  hexDigits (String "x" (String "0" (String "x" s))) = hexDigits s.
Proof.
  intros Hx H0x. split; [| split].
  - unfold hexDigits. by rewrite startsWith_x, slice_1, Hx.
  - unfold hexDigits. change (startsWith (String "0" (String "x" s)) "x") with false.
    cbv iota. by rewrite startsWith_0x, slice_2, Hx, H0x.
  - unfold hexDigits. by rewrite startsWith_x, slice_1, startsWith_0x, slice_2, Hx, H0x.
Qed.

(** X3. The prefixes are optional: for every [s] that begins neither with
    ['x'] nor with ['0x'], [parseHex('x' + s)], [parseHex('0x' + s)] and
    [parseHex('x0x' + s)] all return what [parseHex(s)] returns. *)
Theorem parseHex_prefixes (s : string) :
  startsWith s "x" = false → startsWith s "0x" = false →
  parseHex (String "x" s) = parseHex s ∧
  parseHex (String "0" (String "x" s)) = parseHex s ∧
  parseHex (String "x" (String "0" (String "x" s))) = parseHex s.
Proof.
  intros Hx H0x. unfold parseHex.
  destruct (hexDigits_prefixed s Hx H0x) as (-> & -> & ->). done.
Qed.

Lemma parseHex_prefixes_witness :
  startsWith "c0ffee" "x" = false ∧ startsWith "c0ffee" "0x" = false ∧
  parseHex (String "x" "c0ffee") = parseHex "c0ffee" ∧
  parseHex (String "0" (String "x" "c0ffee")) = parseHex "c0ffee" ∧
  parseHex (String "x" (String "0" (String "x" "c0ffee"))) = parseHex "c0ffee".
Proof.
  split; [reflexivity |]. split; [reflexivity |].
  exact (parseHex_prefixes "c0ffee" eq_refl eq_refl).
Defined.

(** X4. The odd-length rule: for every [s] of odd length that begins
    neither with ['x'] nor with ['0x'], [parseHex(s)] returns what
    [parseHex('0' + s)] returns. *)
Theorem parseHex_odd_length (s : string) :
  startsWith s "x" = false → startsWith s "0x" = false →
  Nat.odd (String.length s) = true →
  parseHex s = parseHex (String "0" s).
Proof.
  intros Hx H0x Hodd. unfold parseHex. f_equal. f_equal.
  rewrite hexDigits_plain by done.
  rewrite <- Nat.negb_odd, Hodd. cbn [negb].
  rewrite hexDigits_plain; [| reflexivity | exact Hx].
  cbn [String.length]. rewrite Nat.even_succ, Hodd. reflexivity.
Qed.

Lemma parseHex_odd_length_witness :
  startsWith "abc" "x" = false ∧ startsWith "abc" "0x" = false ∧
  Nat.odd (String.length "abc") = true ∧
  parseHex "abc" = parseHex (String "0" "abc").
Proof.
  split; [reflexivity |]. split; [reflexivity |]. split; [reflexivity |].
  exact (parseHex_odd_length "abc" eq_refl eq_refl eq_refl).
Defined.

Lemma hexDigits_value (s : string) :
  allHex s →
  length (Buffer_from_hex (hexDigits s)) = ((String.length s + 1) / 2)%nat ∧
  uintBE (Buffer_from_hex (hexDigits s)) = hexValue s.
Proof.
  intros Hs. destruct (allHex_no_prefix s Hs) as [Hx H0x].
  rewrite hexDigits_plain by done.
  pose proof (Nat.div_mod_eq (String.length s) 2) as Hdm.
  pose proof (Nat.div_mod_eq (String.length s + 1) 2) as Hdm1.
  pose proof (Nat.mod_upper_bound (String.length s) 2 ltac:(lia)) as Hub.
  pose proof (Nat.mod_upper_bound (String.length s + 1) 2 ltac:(lia)) as Hub1.
  destruct (Nat.even (String.length s)) eqn:Hev.
  - destruct (Buffer_from_hex_digits s Hev Hs) as [Hlen Hval]. split.
    + rewrite Hlen. apply Nat.even_spec in Hev as [m Hm]. lia.
    + apply Hval.
  - assert (Hev' : Nat.even (String.length (String "0" s)) = true).
    { cbn [String.length]. rewrite Nat.even_succ, <- Nat.negb_even, Hev. reflexivity. }
    assert (Hs' : allHex (String "0" s)) by (apply allHex_cons; split; [discriminate | done]).
    destruct (Buffer_from_hex_digits _ Hev' Hs') as [Hlen Hval]. split.
    + rewrite Hlen. cbn [String.length].
      pose proof (Nat.div_mod_eq (S (String.length s)) 2) as Hdm2.
      pose proof (Nat.mod_upper_bound (S (String.length s)) 2 ltac:(lia)) as Hub2.
      apply Nat.even_spec in Hev' as [m Hm]. cbn [String.length] in Hm. lia.
    + unfold uintBE. rewrite Hval. reflexivity.
Qed.

(** X5. On a string of hexadecimal digits, of either case and of any
    length, [parseHex] returns one byte per two digits, rounded up, and
    these bytes read as a big-endian number are the number the digits
    denote. *)
Theorem parseHex_value (s : string) :
  allHex s →
  ∃ b,
    parseHex s = Normal b ∧
    length b = ((String.length s + 1) / 2)%nat ∧
    uintBE b = hexValue s.
Proof.
  intros Hs. eexists. split; [reflexivity | by apply hexDigits_value].
Qed.

Lemma parseHex_value_witness :
  allHex "1A2b3" ∧
  ∃ b,
    parseHex "1A2b3" = Normal b ∧
    length b = ((String.length "1A2b3" + 1) / 2)%nat ∧
    uintBE b = hexValue "1A2b3".
Proof.
  assert (H : allHex "1A2b3").
  { intros c Hc. simpl in Hc.
    destruct Hc as [<- | [<- | [<- | [<- | [<- | []]]]]]; discriminate. }
  split; [exact H | exact (parseHex_value "1A2b3" H)].
Defined.

Lemma Buffer_from_hex_bad_start (c : ascii) (t : string) :
  unhex c = None → c ≠ "x"%char →
  Buffer_from_hex (hexDigits (String c t)) = [].
Proof.
  intros Hc Hx.
  assert (Hsx : startsWith (String c t) "x" = false).
  { rewrite startsWith_cons. destruct (ascii_dec "x" c) as [<- | _]; [done | reflexivity]. }
  assert (Hs0x : startsWith (String c t) "0x" = false).
  { rewrite startsWith_cons.
    destruct (ascii_dec "0" c) as [<- | _]; [discriminate Hc | reflexivity]. }
  rewrite hexDigits_plain by done.
  destruct (Nat.even (String.length (String c t))) eqn:Hev.
  - destruct t as [| c2 t]; [discriminate Hev |]. cbn [Buffer_from_hex]. by rewrite Hc.
  - cbn [Buffer_from_hex]. rewrite Hc. reflexivity.
Qed.

(** X6. A string whose first character is neither a hexadecimal digit nor
    ['x'] (a minus sign, say) parses to the empty buffer, whatever
    follows, without any error. *)
Theorem parseHex_bad_start (c : ascii) (t : string) :
  unhex c = None → c ≠ "x"%char →
  parseHex (String c t) = Normal [].
Proof.
  intros Hc Hx. unfold parseHex. f_equal. by apply Buffer_from_hex_bad_start.
Qed.

Lemma parseHex_bad_start_witness :
  unhex "-" = None ∧ "-"%char ≠ "x"%char ∧
  parseHex (String "-" "0x1a2b") = Normal [].
Proof.
  assert (H : "-"%char ≠ "x"%char) by discriminate.
  split; [reflexivity |]. split; [exact H |].
  exact (parseHex_bad_start "-" "0x1a2b" eq_refl H).
Defined.

(** ** [getPowParams] *)

(** Parsing a value of the stack and padding it never fails. *)
Lemma parse_and_pad (value : string) (size : nat) :
  settle (parsed ← parseHex value; padded parsed size)
  = Fulfilled
      (replicate (size - length (Buffer_from_hex (hexDigits value))) x00
         ++ drop (length (Buffer_from_hex (hexDigits value)) - size)
              (Buffer_from_hex (hexDigits value))).
Proof.
  unfold parseHex. cbn [mbind completion_bind]. by rewrite padded_result.
Qed.

Lemma stackValue_Fulfilled (params : GetMethodResult) (i : nat) (value : string) :
  stackValue params i = Fulfilled value ↔
  ∃ item, stack params !! i = Some item ∧ item !! 1%nat = Some (JsString value).
Proof.
  unfold stackValue. split.
  - destruct (stack params !! i) as [item |]; [| discriminate].
    destruct (item !! 1%nat) as [[v |] |] eqn:Ev; try discriminate.
    intros [= ->]. by exists item.
  - intros (item & -> & ->). reflexivity.
Qed.

Lemma getPowParams_answer (this : PowGiverContract) (params : GetMethodResult)
    (value0 value1 : string) :
  callGetMethod (client this) (address this) "get_pow_params" = Fulfilled params →
  stackValue params 0 = Fulfilled value0 →
  stackValue params 1 = Fulfilled value1 →
  getPowParams this
  = Fulfilled
      {| seed :=
           replicate (16 - length (Buffer_from_hex (hexDigits value0))) x00
             ++ drop (length (Buffer_from_hex (hexDigits value0)) - 16)
                  (Buffer_from_hex (hexDigits value0));
         complexity :=
           replicate (32 - length (Buffer_from_hex (hexDigits value1))) x00
             ++ drop (length (Buffer_from_hex (hexDigits value1)) - 32)
                  (Buffer_from_hex (hexDigits value1)) |}.
Proof.
  intros Hcall H0 H1. unfold getPowParams. rewrite Hcall.
  cbn [mbind settled_bind]. rewrite H0. cbn [mbind settled_bind].
  rewrite parse_and_pad. cbn [mbind settled_bind]. rewrite H1.
  cbn [mbind settled_bind]. rewrite parse_and_pad. reflexivity.
Qed.

(** X7. When the client answers with a stack whose first two items hold a
    string at index 1, [getPowParams] is fulfilled, whatever the two strings
    are: the seed has exactly 16 bytes and the complexity exactly 32, and
    each, read as a big-endian number, is the number of the bytes that
    [parseHex] returns for its string, modulo [256 ^ 16] and [256 ^ 32]. *)
Theorem getPowParams_sizes (this : PowGiverContract) (params : GetMethodResult)
    (item0 item1 : list JsValue) (value0 value1 : string) :
  callGetMethod (client this) (address this) "get_pow_params" = Fulfilled params →
  stack params !! 0%nat = Some item0 → item0 !! 1%nat = Some (JsString value0) →
  stack params !! 1%nat = Some item1 → item1 !! 1%nat = Some (JsString value1) →
  ∃ s c b0 b1,
    getPowParams this = Fulfilled {| seed := s; complexity := c |} ∧
    length s = 16%nat ∧ length c = 32%nat ∧
    parseHex value0 = Normal b0 ∧ parseHex value1 = Normal b1 ∧
    uintBE s = uintBE b0 `mod` 256 ^ 16 ∧
    uintBE c = uintBE b1 `mod` 256 ^ 32.
Proof.
  intros Hcall Hi0 Hv0 Hi1 Hv1. eexists _, _, _, _.
  split; [apply (getPowParams_answer this params value0 value1 Hcall) |].
  - apply stackValue_Fulfilled. by exists item0.
  - apply stackValue_Fulfilled. by exists item1.
  - split; [apply padded_result_length |]. split; [apply padded_result_length |].
    split; [reflexivity |]. split; [reflexivity |].
    split; [apply (padded_result_value _ 16) | apply (padded_result_value _ 32)].
Qed.

Lemma getPowParams_sizes_witness :
  callGetMethod (sampleClient [[JsString "num"; JsString "0x1a2b"]; [JsString "num"; JsString "xyz"]]) sampleGiver "get_pow_params"
    = Fulfilled (mkGetMethodResult [[JsString "num"; JsString "0x1a2b"]; [JsString "num"; JsString "xyz"]]) ∧
  [[JsString "num"; JsString "0x1a2b"]; [JsString "num"; JsString "xyz"]] !! 0%nat = Some [JsString "num"; JsString "0x1a2b"] ∧
  [JsString "num"; JsString "0x1a2b"] !! 1%nat = Some (JsString "0x1a2b") ∧
  [[JsString "num"; JsString "0x1a2b"]; [JsString "num"; JsString "xyz"]] !! 1%nat = Some [JsString "num"; JsString "xyz"] ∧
  [JsString "num"; JsString "xyz"] !! 1%nat = Some (JsString "xyz") ∧
  ∃ s c b0 b1,
    getPowParams
      (mkPowGiverContract sampleGiver (sampleClient [[JsString "num"; JsString "0x1a2b"]; [JsString "num"; JsString "xyz"]]))
      = Fulfilled {| seed := s; complexity := c |} ∧
    length s = 16%nat ∧ length c = 32%nat ∧
    parseHex "0x1a2b" = Normal b0 ∧ parseHex "xyz" = Normal b1 ∧
    uintBE s = uintBE b0 `mod` 256 ^ 16 ∧
    uintBE c = uintBE b1 `mod` 256 ^ 32.
Proof.
  repeat (split; [reflexivity |]).
  exact (getPowParams_sizes
           (mkPowGiverContract sampleGiver (sampleClient [[JsString "num"; JsString "0x1a2b"]; [JsString "num"; JsString "xyz"]]))
           (mkGetMethodResult [[JsString "num"; JsString "0x1a2b"]; [JsString "num"; JsString "xyz"]])
           [JsString "num"; JsString "0x1a2b"] [JsString "num"; JsString "xyz"]
           "0x1a2b" "xyz"
           eq_refl eq_refl eq_refl eq_refl eq_refl).
Defined.

(** X8. When the two values of the stack are hexadecimal numbers written
    with the ['0x'] prefix, the seed and the complexity that [getPowParams]
    returns are these numbers, big-endian, modulo [2 ^ 128] and [2 ^ 256]:
    a number that fits is returned exactly, left-padded with zeros. *)
Theorem getPowParams_numbers (this : PowGiverContract) (params : GetMethodResult)
    (tag0 tag1 : JsValue) (digits0 digits1 : string) :
  callGetMethod (client this) (address this) "get_pow_params" = Fulfilled params →
  stack params !! 0%nat = Some [tag0; JsString (String "0" (String "x" digits0))] →
  stack params !! 1%nat = Some [tag1; JsString (String "0" (String "x" digits1))] →
  allHex digits0 → allHex digits1 →
  ∃ s c,
    getPowParams this = Fulfilled {| seed := s; complexity := c |} ∧
    length s = 16%nat ∧ length c = 32%nat ∧
    uintBE s = hexValue digits0 `mod` 2 ^ 128 ∧
    uintBE c = hexValue digits1 `mod` 2 ^ 256.
Proof.
  intros Hcall Hi0 Hi1 Hd0 Hd1. eexists _, _.
  split; [apply (getPowParams_answer this params
                   (String "0" (String "x" digits0)) (String "0" (String "x" digits1)) Hcall) |].
  - apply stackValue_Fulfilled. eexists. split; [exact Hi0 | reflexivity].
  - apply stackValue_Fulfilled. eexists. split; [exact Hi1 | reflexivity].
  - split; [apply padded_result_length |]. split; [apply padded_result_length |].
    destruct (allHex_no_prefix _ Hd0) as [Hx0 H0x0].
    destruct (allHex_no_prefix _ Hd1) as [Hx1 H0x1].
    destruct (hexDigits_prefixed _ Hx0 H0x0) as (_ & -> & _).
    destruct (hexDigits_prefixed _ Hx1 H0x1) as (_ & -> & _).
    rewrite (padded_result_value _ 16), (padded_result_value _ 32).
    destruct (hexDigits_value _ Hd0) as [_ ->].
    destruct (hexDigits_value _ Hd1) as [_ ->].
    split; reflexivity.
Qed.

Lemma getPowParams_numbers_witness :
  callGetMethod (sampleClient [[JsString "num"; JsString "0x1a2b"]; [JsString "num"; JsString "0xFF"]]) sampleGiver "get_pow_params"
    = Fulfilled (mkGetMethodResult [[JsString "num"; JsString "0x1a2b"]; [JsString "num"; JsString "0xFF"]]) ∧
  [[JsString "num"; JsString "0x1a2b"]; [JsString "num"; JsString "0xFF"]] !! 0%nat = Some [JsString "num"; JsString (String "0" (String "x" "1a2b"))] ∧
  [[JsString "num"; JsString "0x1a2b"]; [JsString "num"; JsString "0xFF"]] !! 1%nat = Some [JsString "num"; JsString (String "0" (String "x" "FF"))] ∧
  allHex "1a2b" ∧ allHex "FF" ∧
  ∃ s c,
    getPowParams
      (mkPowGiverContract sampleGiver (sampleClient [[JsString "num"; JsString "0x1a2b"]; [JsString "num"; JsString "0xFF"]]))
      = Fulfilled {| seed := s; complexity := c |} ∧
    length s = 16%nat ∧ length c = 32%nat ∧
    uintBE s = hexValue "1a2b" `mod` 2 ^ 128 ∧
    uintBE c = hexValue "FF" `mod` 2 ^ 256.
Proof.
  assert (H0 : allHex "1a2b").
  { intros c Hc. simpl in Hc. destruct Hc as [<- | [<- | [<- | [<- | []]]]]; discriminate. }
  assert (H1 : allHex "FF").
  { intros c Hc. simpl in Hc. destruct Hc as [<- | [<- | []]]; discriminate. }
  split; [reflexivity |]. split; [reflexivity |]. split; [reflexivity |].
  split; [exact H0 |]. split; [exact H1 |].
  exact (getPowParams_numbers
           (mkPowGiverContract sampleGiver (sampleClient [[JsString "num"; JsString "0x1a2b"]; [JsString "num"; JsString "0xFF"]]))
           (mkGetMethodResult [[JsString "num"; JsString "0x1a2b"]; [JsString "num"; JsString "0xFF"]])
           (JsString "num") (JsString "num") "1a2b" "FF" eq_refl eq_refl eq_refl H0 H1).
Defined.

(** X20. A value that does not start like a number is not refused: when
    the first value of the stack begins with a character that is neither a
    hexadecimal digit nor ['x'] (the minus sign of a negative number, say),
    [getPowParams] is fulfilled with a seed of 16 zero bytes. *)
Theorem getPowParams_bad_seed (this : PowGiverContract) (params : GetMethodResult)
    (tag0 : JsValue) (c : ascii) (t : string) (item1 : list JsValue) (value1 : string) :
  callGetMethod (client this) (address this) "get_pow_params" = Fulfilled params →
  stack params !! 0%nat = Some [tag0; JsString (String c t)] →
  unhex c = None → c ≠ "x"%char →
  stack params !! 1%nat = Some item1 → item1 !! 1%nat = Some (JsString value1) →
  ∃ cx,
    getPowParams this = Fulfilled {| seed := replicate 16 x00; complexity := cx |} ∧
    length cx = 32%nat.
Proof.
  intros Hcall Hi0 Hc Hx Hi1 Hv1. eexists.
  split; [| apply (padded_result_length (Buffer_from_hex (hexDigits value1)) 32)].
  rewrite (getPowParams_answer this params (String c t) value1 Hcall).
  - rewrite Buffer_from_hex_bad_start by done. reflexivity.
  - apply stackValue_Fulfilled. eexists. split; [exact Hi0 | reflexivity].
  - apply stackValue_Fulfilled. by exists item1.
Qed.

Lemma getPowParams_bad_seed_witness :
  callGetMethod (sampleClient [[JsString "num"; JsString "-0x1a"]; [JsString "num"; JsString "0xFF"]]) sampleGiver "get_pow_params"
    = Fulfilled (mkGetMethodResult [[JsString "num"; JsString "-0x1a"]; [JsString "num"; JsString "0xFF"]]) ∧
  [[JsString "num"; JsString "-0x1a"]; [JsString "num"; JsString "0xFF"]] !! 0%nat = Some [JsString "num"; JsString (String "-" "0x1a")] ∧
  unhex "-" = None ∧ "-"%char ≠ "x"%char ∧
  [[JsString "num"; JsString "-0x1a"]; [JsString "num"; JsString "0xFF"]] !! 1%nat = Some [JsString "num"; JsString "0xFF"] ∧
  [JsString "num"; JsString "0xFF"] !! 1%nat = Some (JsString "0xFF") ∧
  ∃ cx,
    getPowParams
      (mkPowGiverContract sampleGiver (sampleClient [[JsString "num"; JsString "-0x1a"]; [JsString "num"; JsString "0xFF"]]))
      = Fulfilled {| seed := replicate 16 x00; complexity := cx |} ∧
    length cx = 32%nat.
Proof.
  assert (H : "-"%char ≠ "x"%char) by discriminate.
  split; [reflexivity |]. split; [reflexivity |]. split; [reflexivity |].
  split; [exact H |]. split; [reflexivity |]. split; [reflexivity |].
  exact (getPowParams_bad_seed
           (mkPowGiverContract sampleGiver (sampleClient [[JsString "num"; JsString "-0x1a"]; [JsString "num"; JsString "0xFF"]]))
           (mkGetMethodResult [[JsString "num"; JsString "-0x1a"]; [JsString "num"; JsString "0xFF"]])
           (JsString "num") "-" "0x1a" [JsString "num"; JsString "0xFF"] "0xFF"
           eq_refl eq_refl eq_refl H eq_refl eq_refl).
Defined.

(** X9. [getPowParams] is fulfilled exactly when the client is fulfilled
    with a stack whose items 0 and 1 both hold a string at index 1.  In
    every other case the promise is rejected: when the client is rejected,
    when an item or its entry at index 1 is missing, and when that entry is
    present but is no string. *)
Theorem getPowParams_fulfilled_iff (this : PowGiverContract) :
  (∃ p, getPowParams this = Fulfilled p) ↔
  ∃ params item0 item1 value0 value1,
    callGetMethod (client this) (address this) "get_pow_params" = Fulfilled params ∧
    stack params !! 0%nat = Some item0 ∧ item0 !! 1%nat = Some (JsString value0) ∧
    stack params !! 1%nat = Some item1 ∧ item1 !! 1%nat = Some (JsString value1).
Proof.
  split.
  - intros [p Hp]. unfold getPowParams in Hp.
    destruct (callGetMethod (client this) (address this) "get_pow_params")
      as [params | r] eqn:Hcall; [| discriminate Hp].
    cbn [mbind settled_bind] in Hp.
    destruct (stackValue params 0) as [value0 | r] eqn:H0; [| discriminate Hp].
    cbn [mbind settled_bind] in Hp. rewrite parse_and_pad in Hp.
    cbn [mbind settled_bind] in Hp.
    destruct (stackValue params 1) as [value1 | r] eqn:H1; [| discriminate Hp].
    apply stackValue_Fulfilled in H0 as (item0 & Hi0 & Hv0).
    apply stackValue_Fulfilled in H1 as (item1 & Hi1 & Hv1).
    by exists params, item0, item1, value0, value1.
  - intros (params & item0 & item1 & value0 & value1 & Hcall & Hi0 & Hv0 & Hi1 & Hv1).
    eexists. apply (getPowParams_answer this params value0 value1 Hcall).
    + apply stackValue_Fulfilled. by exists item0.
    + apply stackValue_Fulfilled. by exists item1.
Qed.

(** An entry that is present but is no string rejects the promise. *)
Example getPowParams_number_entry :
  getPowParams
    (mkPowGiverContract sampleGiver
       (sampleClient [[JsString "num"; JsOther]; [JsString "num"; JsString "0xFF"]]))
  = Rejected TypeError ∧
  getPowParams
    (mkPowGiverContract sampleGiver
       (sampleClient [[JsString "num"; JsString "0x1a"]; [JsString "num"; JsOther]]))
  = Rejected TypeError.
Proof. split; reflexivity. Qed.

(** X10. When the client answers with a stack of fewer than two items,
    [getPowParams] is rejected with a [TypeError]. *)
Theorem getPowParams_short_stack (this : PowGiverContract) (params : GetMethodResult) :
  callGetMethod (client this) (address this) "get_pow_params" = Fulfilled params →
  (length (stack params) < 2)%nat →
  getPowParams this = Rejected TypeError.
Proof.
  intros Hcall Hlen. unfold getPowParams. rewrite Hcall. cbn [mbind settled_bind].
  assert (H1 : stackValue params 1 = Rejected TypeError).
  { unfold stackValue. by rewrite lookup_ge_None_2 by lia. }
  destruct (stackValue params 0) as [value0 | r] eqn:H0.
  - cbn [mbind settled_bind]. rewrite parse_and_pad. cbn [mbind settled_bind].
    by rewrite H1.
  - cbn [mbind settled_bind]. f_equal. unfold stackValue in H0.
    destruct (stack params !! 0%nat) as [item |]; [| congruence].
    destruct (item !! 1%nat) as [[v |] |]; congruence.
Qed.

Lemma getPowParams_short_stack_witness :
  callGetMethod (sampleClient [[JsString "num"; JsString "0x1a2b"]]) sampleGiver "get_pow_params"
    = Fulfilled (mkGetMethodResult [[JsString "num"; JsString "0x1a2b"]]) ∧
  (length (stack (mkGetMethodResult [[JsString "num"; JsString "0x1a2b"]])) < 2)%nat ∧
  getPowParams (mkPowGiverContract sampleGiver (sampleClient [[JsString "num"; JsString "0x1a2b"]]))
    = Rejected TypeError.
Proof.
  assert (H : (length (stack (mkGetMethodResult [[JsString "num"; JsString "0x1a2b"]])) < 2)%nat)
    by (apply Nat.ltb_lt; reflexivity).
  split; [reflexivity |]. split; [exact H |].
  exact (getPowParams_short_stack
           (mkPowGiverContract sampleGiver (sampleClient [[JsString "num"; JsString "0x1a2b"]]))
           (mkGetMethodResult [[JsString "num"; JsString "0x1a2b"]]) eq_refl H).
Defined.

(** ** The fields of a job *)

Lemma uint32BE_inj (a b : Z) :
  0 ≤ a < 2 ^ 32 → 0 ≤ b < 2 ^ 32 → uint32BE a = uint32BE b → a = b.
Proof.
  intros Ha Hb Heq. rewrite <- (uint32BE_decode a Ha), <- (uint32BE_decode b Hb).
  by rewrite Heq.
Qed.

(** With the widths fixed, the variable part of a job gives its fields
    back. *)
Lemma job_fields_inj (e e' : Z) (h h' r r' s s' : Buffer) :
  0 ≤ e < 2 ^ 32 → 0 ≤ e' < 2 ^ 32 →
  length h = length h' → length r = length r' →
  uint32BE e ++ h ++ r ++ s ++ r = uint32BE e' ++ h' ++ r' ++ s' ++ r' →
  e = e' ∧ h = h' ∧ r = r' ∧ s = s'.
Proof.
  intros He He' Hh Hr Heq.
  apply app_inj_1 in Heq as [Hu Heq]; [| by rewrite !uint32BE_length].
  apply app_inj_1 in Heq as [-> Heq]; [| exact Hh].
  apply app_inj_1 in Heq as [-> Heq]; [| exact Hr].
  apply app_inv_tail in Heq as ->.
  split; [by apply uint32BE_inj | done].
Qed.

Lemma Normal_inj {A : Type} (a b : A) : Normal a = Normal b → a = b.
Proof. by intros [= ->]. Qed.

Lemma Address_eq (a b : Address) :
  workChain a = workChain b → hash a = hash b → a = b.
Proof. destruct a, b. simpl. by intros -> ->. Qed.

(** X11. [createMiningJobHeader] has no workchain guard: for a wallet of
    any workchain, with an expiry that is an unsigned 32-bit number, it
    returns a buffer; for a wallet hash of 32 bytes it has 43 bytes and
    starts with [0x00 0xF2].  [createMiningJob] returns this header followed
    by random, seed and random when the wallet is in workchain 0, and throws
    for any other workchain, for which the header alone is still returned. *)
Theorem createMiningJob_extends_header
    (seed random : Buffer) (wallet : Address) (expiresSec : Z) :
  length (hash wallet) = 32%nat →
  0 ≤ expiresSec < 2 ^ 32 →
  ∃ header,
    createMiningJobHeader wallet expiresSec = Normal header ∧
    length header = 43%nat ∧
    take 2 header = [x00; xf2] ∧
    createMiningJob seed random wallet expiresSec
    = if decide (workChain wallet = 0)
      then Normal (header ++ random ++ seed ++ random)
      else Throw (Error basicWorkchainOnly).
Proof.
  intros Hhash He.
  assert (Hheader : createMiningJobHeader wallet expiresSec
                    = Normal (Buffer_concat
                                [ Buffer_from_array [0x0; 0xF2]; Buffer_from_string "Mine";
                                  Buffer_from_array [0]; uint32BE expiresSec; hash wallet ])).
  { unfold createMiningJobHeader. by rewrite createUInt32_in_range. }
  eexists. split; [exact Hheader |]. split; [| split].
  - unfold Buffer_concat. cbn [concat]. rewrite !length_app, uint32BE_length, Hhash.
    reflexivity.
  - reflexivity.
  - unfold createMiningJob. destruct (decide (workChain wallet = 0)) as [Hwc | Hwc].
    + rewrite decide_False by (intros H; by apply H). rewrite Hheader.
      cbn [mbind completion_bind mret completion_ret].
      f_equal. unfold Buffer_concat. cbn [concat]. by rewrite !app_nil_r.
    + by rewrite decide_True.
Qed.

Lemma createMiningJob_extends_header_witness :
  length (hash sampleGiver) = 32%nat ∧
  0 ≤ 1700000000 < 2 ^ 32 ∧
  ∃ header,
    createMiningJobHeader sampleGiver 1700000000 = Normal header ∧
    length header = 43%nat ∧
    take 2 header = [x00; xf2] ∧
    createMiningJob [x22] [x11] sampleGiver 1700000000
    = if decide (workChain sampleGiver = 0)
      then Normal (header ++ [x11] ++ [x22] ++ [x11])
      else Throw (Error basicWorkchainOnly).
Proof.
  assert (He : 0 ≤ 1700000000 < 2 ^ 32) by (split; [discriminate | reflexivity]).
  split; [reflexivity |]. split; [exact He |].
  exact (createMiningJob_extends_header [x22] [x11] sampleGiver 1700000000 eq_refl He).
Defined.

(** X12. With the widths fixed the job determines its inputs: two calls of
    [createMiningJob] for wallets in workchain 0 with hashes of one length,
    randoms of one length and unsigned 32-bit expiries return the same
    buffer only if seed, random, wallet and expiry are the same.  (The
    expiry is encoded by [createUInt32], taken as the 4-byte big-endian
    encoding.) *)
Theorem createMiningJob_injective
    (seed seed' random random' : Buffer) (wallet wallet' : Address) (expiresSec expiresSec' : Z) :
  workChain wallet = 0 → workChain wallet' = 0 →
  length (hash wallet) = length (hash wallet') →
  length random = length random' →
  0 ≤ expiresSec < 2 ^ 32 → 0 ≤ expiresSec' < 2 ^ 32 →
  createMiningJob seed random wallet expiresSec
    = createMiningJob seed' random' wallet' expiresSec' →
  seed = seed' ∧ random = random' ∧ wallet = wallet' ∧ expiresSec = expiresSec'.
Proof.
  intros Hwc Hwc' Hh Hr He He' Heq.
  rewrite !createMiningJob_basic in Heq by done.
  apply Normal_inj in Heq. do 3 apply app_inv_head in Heq.
  destruct (job_fields_inj _ _ _ _ _ _ _ _ He He' Hh Hr Heq) as (-> & Hhash & -> & ->).
  repeat split. apply Address_eq; congruence.
Qed.

Lemma createMiningJob_injective_witness :
  workChain sampleWallet = 0 ∧ workChain sampleWallet = 0 ∧
  length (hash sampleWallet) = length (hash sampleWallet) ∧
  length [x11] = length [x11] ∧
  0 ≤ 1700000000 < 2 ^ 32 ∧ 0 ≤ 1700000000 < 2 ^ 32 ∧
  createMiningJob [x22] [x11] sampleWallet 1700000000
    = createMiningJob [x22] [x11] sampleWallet 1700000000 ∧
  [x22] = [x22] ∧ [x11] = [x11] ∧ sampleWallet = sampleWallet ∧ 1700000000 = 1700000000.
Proof.
  assert (He : 0 ≤ 1700000000 < 2 ^ 32) by (split; [discriminate | reflexivity]).
  do 7 (split; [first [reflexivity | exact He] |]).
  exact (createMiningJob_injective [x22] [x22] [x11] [x11] sampleWallet sampleWallet
           1700000000 1700000000 eq_refl eq_refl eq_refl eq_refl He He eq_refl).
Defined.

(** X13. The same for the message: two calls of [createMiningMessage] for
    wallets in workchain 0, with hashes of one length, randoms of one length
    and unsigned 32-bit expiries, build the same message only if giver, seed,
    random, wallet and expiry are the same. *)
Theorem createMiningMessage_injective
    (giver giver' : Address) (seed seed' random random' : Buffer)
    (wallet wallet' : Address) (expiresSec expiresSec' : Z) :
  workChain wallet = 0 → workChain wallet' = 0 →
  length (hash wallet) = length (hash wallet') →
  length random = length random' →
  0 ≤ expiresSec < 2 ^ 32 → 0 ≤ expiresSec' < 2 ^ 32 →
  createMiningMessage giver seed random wallet expiresSec
    = createMiningMessage giver' seed' random' wallet' expiresSec' →
  giver = giver' ∧ seed = seed' ∧ random = random' ∧ wallet = wallet' ∧
  expiresSec = expiresSec'.
Proof.
  intros Hwc Hwc' Hh Hr He He' Heq.
  rewrite !createMiningMessage_basic in Heq by done.
  apply Normal_inj in Heq.
  assert (Hto := f_equal to Heq). assert (Hbody := f_equal messageBody Heq).
  cbn [to messageBody body info_body payload] in Hto, Hbody. subst giver'.
  do 2 apply app_inv_head in Hbody. clear Heq. rename Hbody into Heq.
  destruct (job_fields_inj _ _ _ _ _ _ _ _ He He' Hh Hr Heq) as (-> & Hhash & -> & ->).
  repeat split. apply Address_eq; congruence.
Qed.

Lemma createMiningMessage_injective_witness :
  workChain sampleWallet = 0 ∧ workChain sampleWallet = 0 ∧
  length (hash sampleWallet) = length (hash sampleWallet) ∧
  length [x11] = length [x11] ∧
  0 ≤ 1700000000 < 2 ^ 32 ∧ 0 ≤ 1700000000 < 2 ^ 32 ∧
  createMiningMessage sampleGiver [x22] [x11] sampleWallet 1700000000
    = createMiningMessage sampleGiver [x22] [x11] sampleWallet 1700000000 ∧
  sampleGiver = sampleGiver ∧ [x22] = [x22] ∧ [x11] = [x11] ∧
  sampleWallet = sampleWallet ∧ 1700000000 = 1700000000.
Proof.
  assert (He : 0 ≤ 1700000000 < 2 ^ 32) by (split; [discriminate | reflexivity]).
  do 7 (split; [first [reflexivity | exact He] |]).
  exact (createMiningMessage_injective sampleGiver sampleGiver [x22] [x22] [x11] [x11]
           sampleWallet sampleWallet 1700000000 1700000000
           eq_refl eq_refl eq_refl eq_refl He He eq_refl).
Defined.

(** X14. Without fixed widths the job does not determine its inputs: for a
    wallet in workchain 0 and an expiry that is an unsigned 32-bit number,
    the seed [r ++ s ++ r] with an empty random and the seed [s] with the
    random [r] give the same job, for every [r] and [s]. *)
Theorem createMiningJob_ambiguous
    (r s : Buffer) (wallet : Address) (expiresSec : Z) :
  workChain wallet = 0 →
  0 ≤ expiresSec < 2 ^ 32 →
  ∃ job,
    createMiningJob (r ++ s ++ r) [] wallet expiresSec = Normal job ∧
    createMiningJob s r wallet expiresSec = Normal job.
Proof.
  intros Hwc He. eexists. split; [| by apply createMiningJob_basic].
  rewrite createMiningJob_basic by done. cbn [app]. by rewrite app_nil_r.
Qed.

Lemma createMiningJob_ambiguous_witness :
  workChain sampleWallet = 0 ∧
  0 ≤ 1700000000 < 2 ^ 32 ∧
  ∃ job,
    createMiningJob ([x11] ++ [x22] ++ [x11]) [] sampleWallet 1700000000 = Normal job ∧
    createMiningJob [x22] [x11] sampleWallet 1700000000 = Normal job.
Proof.
  assert (He : 0 ≤ 1700000000 < 2 ^ 32) by (split; [discriminate | reflexivity]).
  split; [reflexivity |]. split; [exact He |].
  exact (createMiningJob_ambiguous [x11] [x22] sampleWallet 1700000000 eq_refl He).
Defined.

(** ** [checkMiningJobHash], at its edges *)

(** X15. For a wallet outside workchain 0, [checkMiningJobHash] does not
    answer [false]: it rejects with the error of the workchain guard,
    whatever the candidate and the hash function. *)
Theorem checkMiningJobHash_other_workchain
    (sha256 : Buffer → Buffer)
    (seed random : Buffer) (wallet : Address) (expiresSec : Z) (candidate : Buffer) :
  workChain wallet ≠ 0 →
  checkMiningJobHash sha256 seed random wallet expiresSec candidate
  = Throw (Error basicWorkchainOnly).
Proof.
  intros Hwc. unfold checkMiningJobHash, createMiningJob.
  by rewrite decide_True.
Qed.

Lemma checkMiningJobHash_other_workchain_witness :
  workChain sampleGiver ≠ 0 ∧
  checkMiningJobHash sampleDigest [x22] [x11] sampleGiver 1700000000 [x11; x22; x11]
  = Throw (Error basicWorkchainOnly).
Proof.
  assert (H : workChain sampleGiver ≠ 0) by (intros E; discriminate E).
  split; [exact H |].
  exact (checkMiningJobHash_other_workchain
           sampleDigest [x22] [x11] sampleGiver 1700000000 [x11; x22; x11] H).
Defined.

(** X16. With a hash function whose digests have 32 bytes, a candidate of
    any other length is answered with [false], not with an error, for every
    wallet in workchain 0 and every expiry that is an unsigned 32-bit
    number. *)
Theorem checkMiningJobHash_wrong_length
    (sha256 : Buffer → Buffer)
    (seed random : Buffer) (wallet : Address) (expiresSec : Z) (candidate : Buffer) :
  (∀ data, length (sha256 data) = 32%nat) →
  workChain wallet = 0 →
  0 ≤ expiresSec < 2 ^ 32 →
  length candidate ≠ 32%nat →
  checkMiningJobHash sha256 seed random wallet expiresSec candidate = Normal false.
Proof.
  intros Hdigest Hwc He Hlen. unfold checkMiningJobHash.
  rewrite createMiningJob_basic by done. cbn [mbind completion_bind mret completion_ret].
  f_equal. apply not_true_is_false. intros Heq. apply Buffer_equals_spec in Heq.
  apply Hlen. rewrite Heq. apply Hdigest.
Qed.

Lemma checkMiningJobHash_wrong_length_witness :
  (∀ data : Buffer, length (replicate 32 x00 : Buffer) = 32%nat) ∧
  workChain sampleWallet = 0 ∧
  0 ≤ 1700000000 < 2 ^ 32 ∧
  length [x11; x22; x11] ≠ 32%nat ∧
  checkMiningJobHash (fun _ => replicate 32 x00) [x22] [x11] sampleWallet 1700000000
    [x11; x22; x11] = Normal false.
Proof.
  assert (Hd : ∀ data : Buffer, length (replicate 32 x00 : Buffer) = 32%nat)
    by (intros _; reflexivity).
  assert (He : 0 ≤ 1700000000 < 2 ^ 32) by (split; [discriminate | reflexivity]).
  assert (Hl : length [x11; x22; x11] ≠ 32%nat) by discriminate.
  split; [exact Hd |]. split; [reflexivity |]. split; [exact He |]. split; [exact Hl |].
  exact (checkMiningJobHash_wrong_length (fun _ => replicate 32 x00)
           [x22] [x11] sampleWallet 1700000000 [x11; x22; x11] Hd eq_refl He Hl).
Defined.

(** ** [extractPowParamsFromState], beyond the layout *)

Lemma byte_of_bits_of_byte (b : byte) : byte_of_bits (bits_of_byte b) = b.
Proof. destruct b; reflexivity. Qed.

Lemma bits_of_bytes_cons (b : byte) (bs : Buffer) :
  bits_of_bytes (b :: bs) = bits_of_byte b ++ bits_of_bytes bs.
Proof. reflexivity. Qed.

Lemma bits_of_bytes_length (bs : Buffer) :
  length (bits_of_bytes bs) = (8 * length bs)%nat.
Proof.
  induction bs as [| b bs IH]; [reflexivity |].
  rewrite bits_of_bytes_cons, length_app, IH. unfold bits_of_byte.
  rewrite length_map, length_seq. cbn [length]. lia.
Qed.

(** Packing the bits of a buffer gives the buffer back, whatever follows
    them. *)
Lemma bytes_of_bits_of_bytes (bs : Buffer) (rest : list bool) :
  bytes_of_bits (length bs) (bits_of_bytes bs ++ rest) = bs.
Proof.
  induction bs as [| b bs IH]; [reflexivity |].
  cbn [length bytes_of_bits]. rewrite bits_of_bytes_cons, <- app_assoc.
  rewrite take_app_length', drop_app_length'
    by (unfold bits_of_byte; by rewrite length_map, length_seq).
  by rewrite byte_of_bits_of_byte, IH.
Qed.

(** X17. On a state of fewer than 704 bits, [extractPowParamsFromState]
    returns neither seed nor complexity: the reader, taken as the
    forward-only cursor that fails on a read past the end, throws its
    out-of-range error. *)
Theorem extractPowParamsFromState_short (cell : Cell) :
  (length (bits cell) < 704)%nat →
  extractPowParamsFromState cell = Throw OutOfRangeError.
Proof.
  intros Hlen. unfold extractPowParamsFromState, runReading.
  change (32 + 32 + 256)%nat with 320%nat.
  change (128 / 8)%nat with 16%nat. change (256 / 8)%nat with 32%nat.
  unfold mbind, Reading_bind, mret, Reading_ret.
  destruct (decide (320 ≤ length (bits cell))%nat) as [H320 | H320].
  - rewrite skip_in_range by (cbn [offset reader_bits newBitStringReader]; lia).
    destruct (decide (448 ≤ length (bits cell))%nat) as [H448 | H448].
    + rewrite readBuffer_in_range by (cbn [offset reader_bits newBitStringReader]; lia).
      unfold readBuffer at 1. cbn [offset reader_bits newBitStringReader].
      by rewrite decide_False by lia.
    + unfold readBuffer at 1. cbn [offset reader_bits newBitStringReader].
      by rewrite decide_False by lia.
  - unfold skip. cbn [offset reader_bits newBitStringReader].
    by rewrite decide_False by lia.
Qed.

Lemma extractPowParamsFromState_short_witness :
  (length (bits (mkCell (replicate 703 true))) < 704)%nat ∧
  extractPowParamsFromState (mkCell (replicate 703 true)) = Throw OutOfRangeError.
Proof.
  assert (H : (length (bits (mkCell (replicate 703 true))) < 704)%nat)
    by (apply Nat.ltb_lt; reflexivity).
  split; [exact H | exact (extractPowParamsFromState_short (mkCell (replicate 703 true)) H)].
Defined.

(** X18. Round trip: from a state made of 320 bits of any content, the
    bits of a 16-byte seed, the bits of a 32-byte complexity (each byte most
    significant bit first) and any further bits, [extractPowParamsFromState]
    returns exactly that seed and that complexity. *)
Theorem extractPowParamsFromState_round_trip
    (header rest : list bool) (s c : Buffer) :
  length header = 320%nat → length s = 16%nat → length c = 32%nat →
  extractPowParamsFromState
    (mkCell (header ++ bits_of_bytes s ++ bits_of_bytes c ++ rest))
  = Normal {| seed := s; complexity := c |}.
Proof.
  intros Hh Hs Hc.
  assert (HS : length (bits_of_bytes s) = 128%nat) by (rewrite bits_of_bytes_length, Hs; done).
  assert (HC : length (bits_of_bytes c) = 256%nat) by (rewrite bits_of_bytes_length, Hc; done).
  rewrite extractPowParamsFromState_reads
    by (cbn [bits]; rewrite !length_app, Hh, HS, HC; lia).
  cbn [bits]. f_equal. f_equal.
  - rewrite drop_app_length' by done. rewrite take_app_length' by done.
    rewrite <- Hs, <- (app_nil_r (bits_of_bytes s)). apply bytes_of_bits_of_bytes.
  - rewrite (app_assoc header). rewrite drop_app_length' by (rewrite length_app, Hh, HS; done).
    rewrite take_app_length' by done.
    rewrite <- Hc, <- (app_nil_r (bits_of_bytes c)). apply bytes_of_bits_of_bytes.
Qed.

Lemma extractPowParamsFromState_round_trip_witness :
  length (replicate 320 true) = 320%nat ∧
  length (replicate 16 x5a) = 16%nat ∧
  length (replicate 32 xc3) = 32%nat ∧
  extractPowParamsFromState
    (mkCell (replicate 320 true ++ bits_of_bytes (replicate 16 x5a)
               ++ bits_of_bytes (replicate 32 xc3) ++ [true; false; true]))
  = Normal {| seed := replicate 16 x5a; complexity := replicate 32 xc3 |}.
Proof.
  split; [reflexivity |]. split; [reflexivity |]. split; [reflexivity |].
  exact (extractPowParamsFromState_round_trip
           (replicate 320 true) [true; false; true] (replicate 16 x5a) (replicate 32 xc3)
           eq_refl eq_refl eq_refl).
Defined.

(** X19. [extractPowParamsFromState] looks at bits 320 to 703 only: two
    states of at least 704 bits that agree on these 384 bits give the same
    seed and the same complexity, whatever their first 320 bits and whatever
    follows bit 703. *)
Theorem extractPowParamsFromState_local (cell cell' : Cell) :
  (704 ≤ length (bits cell))%nat → (704 ≤ length (bits cell'))%nat →
  take 384 (drop 320 (bits cell)) = take 384 (drop 320 (bits cell')) →
  extractPowParamsFromState cell = extractPowParamsFromState cell'.
Proof.
  intros Hlen Hlen' Heq. rewrite !extractPowParamsFromState_reads by done.
  assert (Hseed : ∀ b : list bool, take 128 (drop 320 b) = take 128 (take 384 (drop 320 b))).
  { intros b. rewrite take_take. reflexivity. }
  assert (Hcx : ∀ b : list bool,
             take 256 (drop 448 b) = drop 128 (take 384 (drop 320 b))).
  { intros b. rewrite <- (take_drop_commute _ 256 128), drop_drop. reflexivity. }
  by rewrite (Hseed (bits cell)), (Hcx (bits cell)), Heq, <- Hseed, <- Hcx.
Qed.

Lemma extractPowParamsFromState_local_witness :
  (704 ≤ length (bits sampleState))%nat ∧
  (704 ≤ length (bits (mkCell (replicate 320 false ++ drop 320 (bits sampleState) ++ [true]))))%nat ∧
  take 384 (drop 320 (bits sampleState))
    = take 384 (drop 320 (bits (mkCell (replicate 320 false
                                          ++ drop 320 (bits sampleState) ++ [true])))) ∧
  extractPowParamsFromState sampleState
    = extractPowParamsFromState
        (mkCell (replicate 320 false ++ drop 320 (bits sampleState) ++ [true])).
Proof.
  assert (H1 : (704 ≤ length (bits sampleState))%nat) by (apply Nat.leb_le; reflexivity).
  assert (H2 : (704 ≤ length (bits (mkCell (replicate 320 false
                                     ++ drop 320 (bits sampleState) ++ [true]))))%nat)
    by (apply Nat.leb_le; reflexivity).
  split; [exact H1 |]. split; [exact H2 |]. split; [reflexivity |].
  exact (extractPowParamsFromState_local sampleState
           (mkCell (replicate 320 false ++ drop 320 (bits sampleState) ++ [true]))
           H1 H2 eq_refl).
Defined.
